(** * xml-orgrfc: conversion of an XMLRFC document tree to org-mode text

    A shallow embedding of [xml_orgrfc/__main__.py].  Python [str] values are
    modelled as [string] (a sequence of characters with code point below 256),
    lists of output fragments as [list string], the [sec_refs] dictionary as a
    [gmap string nat], exceptions as the [Raise] results of an error monad. *)

From Stdlib Require Import Ascii String List Arith Lia Permutation.
From stdpp Require Import gmap strings list fin_maps.

(** ** Exceptions and the error monad *)

Inductive exn :=
| KeyError (key : string)
| AttributeError
| TypeError
| IndexError
| AssertionError (msg : string).

Inductive res (A : Type) :=
| Ok (a : A)
| Raise (e : exn).
Arguments Ok {A} a.
Arguments Raise {A} e.

Definition res_bind {A B} (f : A → res B) (m : res A) : res B :=
  match m with
  | Ok a => f a
  | Raise e => Raise e
  end.

#[global] Instance res_mbind : MBind res := @res_bind.
#[global] Instance res_mret : MRet res := @Ok.

Definition assert_that (b : bool) (msg : string) : res unit :=
  if b then Ok tt else Raise (AssertionError msg).

(** A [for] loop whose body may raise: [body x] turns the state before the
    turn for [x] into the state after it. *)
Section ForEach.
Context {A S : Type} (body : A → S → res S).

Fixpoint for_each (l : list A) (s : S) : res S :=
  match l with
  | [] => mret s
  | x :: l' => s ← body x s; for_each l' s
  end.
End ForEach.

(** ** Python string primitives *)

Module Py.

Definition nl_char : ascii := "010"%char.
Definition tab_char : ascii := "009"%char.
Definition dquote_char : ascii := "034"%char.
Definition nl : string := String nl_char "".
Definition dquote : string := String dquote_char "".

(** [str.isspace] on one character: the whitespace code points below 256. *)
Definition isspace (c : ascii) : bool :=
  let n := nat_of_ascii c in
  ((9 <=? n) && (n <=? 13)) || ((28 <=? n) && (n <=? 32))
  || (n =? 133) || (n =? 160).

(** The class [[ \t]] of the regular expressions. *)
Definition isblank (c : ascii) : bool :=
  Ascii.eqb c " " || Ascii.eqb c tab_char.

(** The class [[0-9]]. *)
Definition isdigit (c : ascii) : bool :=
  let n := nat_of_ascii c in (48 <=? n) && (n <=? 57).

Definition nonempty (s : string) : bool :=
  match s with EmptyString => false | String _ _ => true end.

Fixpoint lstrip (s : string) : string :=
  match s with
  | EmptyString => EmptyString
  | String c s' => if isspace c then lstrip s' else s
  end.

Fixpoint rstrip (s : string) : string :=
  match s with
  | EmptyString => EmptyString
  | String c s' =>
      let r := rstrip s' in
      if isspace c && negb (nonempty r) then EmptyString else String c r
  end.

Definition strip (s : string) : string := rstrip (lstrip s).

(** [s * n] *)
Fixpoint repeat_str (s : string) (n : nat) : string :=
  match n with
  | O => EmptyString
  | S n' => s +:+ repeat_str s n'
  end.

(** [str.join] with the empty separator *)
Fixpoint concat_str (l : list string) : string :=
  match l with
  | [] => EmptyString
  | s :: l' => s +:+ concat_str l'
  end.

(** [sep.join(l)] *)
Fixpoint join (sep : string) (l : list string) : string :=
  match l with
  | [] => EmptyString
  | [s] => s
  | s :: l' => s +:+ sep +:+ join sep l'
  end.

(** [s.startswith(p)] *)
Fixpoint startswith (p s : string) : bool :=
  match p, s with
  | EmptyString, _ => true
  | String a p', String b s' => Ascii.eqb a b && startswith p' s'
  | String _ _, EmptyString => false
  end.

(** [s.endswith(p)] *)
Fixpoint endswith (p s : string) : bool :=
  match s with
  | EmptyString => negb (nonempty p)
  | String _ s' => String.eqb p s || endswith p s'
  end.

(** [p in s] for strings *)
Fixpoint contains (p s : string) : bool :=
  startswith p s ||
  match s with
  | EmptyString => false
  | String _ s' => contains p s'
  end.

(** [s\[0\]] as a one-character string, for a non-empty [s]. *)
Definition first_char (s : string) : string :=
  match s with
  | EmptyString => EmptyString
  | String c _ => String c EmptyString
  end.

(** [str(x)] inside an f-string for a value that may be [None]. *)
Definition fmt_opt (o : option string) : string :=
  match o with
  | Some s => s
  | None => "None"
  end.

(** [re.sub] of a newline followed by one or more blanks (spaces or tabs)
    by one space: the flag says that the characters being read continue a
    match whose newline was seen. *)
Fixpoint sub_newline_blanks (inside : bool) (s : string) : string :=
  match s with
  | EmptyString => EmptyString
  | String c s' =>
      if inside && isblank c then sub_newline_blanks true s'
      else if Ascii.eqb c nl_char
              && match s' with String d _ => isblank d | EmptyString => false end
      then String " " (sub_newline_blanks true s')
      else String c (sub_newline_blanks false s')
  end.

(** [re.sub] of three or more newlines by two: [seen] counts the newlines
    already copied from the current run. *)
Fixpoint sub_blank_lines (seen : nat) (s : string) : string :=
  match s with
  | EmptyString => EmptyString
  | String c s' =>
      if Ascii.eqb c nl_char then
        if 2 <=? seen then sub_blank_lines seen s'
        else String c (sub_blank_lines (S seen) s')
      else String c (sub_blank_lines 0 s')
  end.

(** [str.format] with the format [:<w] and its [^], [>] and default variants. *)
Definition format_s (align : string) (width : nat) (s : string) : string :=
  let pad := width - String.length s in
  if String.eqb align "^" then
    repeat_str " " (pad / 2) +:+ s +:+ repeat_str " " (pad - pad / 2)
  else if String.eqb align ">" then repeat_str " " pad +:+ s
  else s +:+ repeat_str " " pad.

End Py.

(** ** The document tree ([xml.etree.ElementTree.Element]) *)

#[warnings="-register-all"]
Inductive Element :=
| Elt (tag : string) (attrib : list (string * string))
      (text tail : option string) (children : list Element).

Definition tag (e : Element) : string :=
  match e with Elt t _ _ _ _ => t end.
Definition attrib (e : Element) : list (string * string) :=
  match e with Elt _ a _ _ _ => a end.
Definition text (e : Element) : option string :=
  match e with Elt _ _ t _ _ => t end.
Definition tail (e : Element) : option string :=
  match e with Elt _ _ _ t _ => t end.
Definition children (e : Element) : list Element :=
  match e with Elt _ _ _ _ cs => cs end.

(** [attrib.get(k)]: attributes keep their document order. *)
Fixpoint attr_get (a : list (string * string)) (k : string) : option string :=
  match a with
  | [] => None
  | (k', v) :: a' => if String.eqb k' k then Some v else attr_get a' k
  end.

(** [attrib.get] with the empty string as default *)
Definition attr_get_str (a : list (string * string)) (k : string) : string :=
  default "" (attr_get a k).

(** [elt.find(name)]: the first child with that tag. *)
Fixpoint find (name : string) (cs : list Element) : option Element :=
  match cs with
  | [] => None
  | c :: cs' => if String.eqb (tag c) name then Some c else find name cs'
  end.

(** The element and everything below it, in document order. *)
Fixpoint subtree (e : Element) : list Element :=
  match e with
  | Elt _ _ _ _ cs => e :: flat_map subtree cs
  end.

(** [root.findall] on the path [.//name]: every element below [root] with
    that tag. *)
Definition findall_below (name : string) (root : Element) : list Element :=
  filter (λ e, tag e = name) (flat_map subtree (children root)).

(** [x.text.strip()], which raises when the element has no text. *)
Definition text_strip (e : Element) : res string :=
  match text e with
  | Some s => Ok (Py.strip s)
  | None => Raise AttributeError
  end.

(** [_unindent(x)], which raises when it is handed [None]. *)
Definition _unindent (t : option string) : res string :=
  match t with
  | Some s => Ok (Py.sub_newline_blanks false s)
  | None => Raise TypeError
  end.

(** [add_elt_attr] *)
Definition add_elt_attr (e : Element) (attr name : string)
    (lines : list string) : list string :=
  let v := Py.strip (attr_get_str (attrib e) attr) in
  if Py.nonempty v then lines ++ ["#+" +:+ name +:+ ": " +:+ v +:+ Py.nl]
  else lines.

(** ** Bibliographic entries *)

Definition _cvt_front_ref (front : Element) (lines : list string)
    : res (list string) :=
  lines ← match find "title" (children front) with
          | Some e =>
              t ← text_strip e;
              mret (lines ++ [":REF_TITLE: " +:+ t +:+ Py.nl])
          | None => mret lines
          end;
  match find "author" (children front) with
  | Some author =>
      match find "organization" (children author) with
      | Some org =>
          t ← text_strip org;
          mret (lines ++ [":REF_ORG: " +:+ t +:+ Py.nl])
      | None => Raise AttributeError
      end
  | None => mret lines
  end.

Module Re.

(** The longest prefix of [s] in a character class, and the rest. *)
Fixpoint span (cls : ascii → bool) (s : string) : string * string :=
  match s with
  | EmptyString => (EmptyString, EmptyString)
  | String c s' =>
      if cls c then let '(a, b) := span cls s' in (String c a, b)
      else (EmptyString, s)
  end.

Fixpoint drop_prefix (p s : string) : option string :=
  match p, s with
  | EmptyString, _ => Some s
  | String a p', String b s' =>
      if Ascii.eqb a b then drop_prefix p' s' else None
  | String _ _, EmptyString => None
  end.

(** [.*] followed by a pattern matched by [here]: the greedy star takes
    the last position that works, and never crosses a newline. *)
Fixpoint dot_star {A} (here : string → option A) (s : string) : option A :=
  match s with
  | EmptyString => here s
  | String c s' =>
      let later := if Ascii.eqb c Py.nl_char then None else dot_star here s' in
      match later with
      | Some r => Some r
      | None => here s
      end
  end.

(** The class [[-a-z0-9]]. *)
Definition isnamechar (c : ascii) : bool :=
  let n := nat_of_ascii c in
  Ascii.eqb c "-" || ((97 <=? n) && (n <=? 122)) || Py.isdigit c.

(** [reference\.RFC\.([0-9]+)\.xml] at the start of [s]: group 1. *)
Definition rfc_here (s : string) : option string :=
  r ← drop_prefix "reference.RFC." s;
  let '(digits, rest) := span Py.isdigit r in
  if Py.nonempty digits && Py.startswith ".xml" rest then Some digits
  else None.

(** [reference\.I-D.([-a-z0-9]+)\.xml] at the start of [s]: group 1.  The
    dot after [I-D] is not escaped: it stands for any character but a
    newline. *)
Definition id_here (s : string) : option string :=
  r ← drop_prefix "reference.I-D" s;
  match r with
  | EmptyString => None
  | String c r' =>
      if Ascii.eqb c Py.nl_char then None
      else
        let '(name, rest) := span isnamechar r' in
        if Py.nonempty name && Py.startswith ".xml" rest then Some name
        else None
  end.

(** [re.match] of [.*reference\.RFC\.([0-9]+)\.xml] *)
Definition match_rfc (s : string) : option string := dot_star rfc_here s.
(** [re.match] of [.*reference\.I-D.([-a-z0-9]+)\.xml] *)
Definition match_id (s : string) : option string := dot_star id_here s.

(** [-([0-9][0-9])] at the start of [s]: group 2. *)
Definition version_here (s : string) : option string :=
  match s with
  | String c (String d1 (String d2 _)) =>
      if Ascii.eqb c "-" && Py.isdigit d1 && Py.isdigit d2
      then Some (String d1 (String d2 EmptyString)) else None
  | _ => None
  end.

(** [([-a-z0-9]+)-([0-9][0-9])] at the start of [s], having read [acc]
    (in reverse) for group 1: the greedy group gives back characters until
    the version follows, so the last position that works wins. *)
Fixpoint docname_from (acc : string) (s : string) : option (string * string) :=
  match s with
  | EmptyString => None
  | String c s' =>
      let later := if isnamechar c then docname_from (String c acc) s' else None in
      match later with
      | Some r => Some r
      | None =>
          if Py.nonempty acc then
            v ← version_here s; Some (String.rev acc, v)
          else None
      end
  end.

(** [re.match] of [([-a-z0-9]+)-([0-9][0-9])]: groups 1 and 2. *)
Definition match_docname (s : string) : option (string * string) :=
  docname_from EmptyString s.

End Re.

Definition _cvt_reference (child : Element) (lines : list string)
    : res (list string) :=
  let included :=
    if Py.contains "include" (tag child) then
      match attr_get (attrib child) "href" with
      | Some href =>
          match Re.match_rfc href with
          | Some n => Some ("** RFC" +:+ n +:+ Py.nl)
          | None =>
              match Re.match_id href with
              | Some n => Some ("** I-D." +:+ n +:+ Py.nl)
              | None => None
              end
          end
      | None => None
      end
    else None in
  match included with
  | Some line => mret (lines ++ [line])
  | None =>
      if String.eqb (tag child) "reference" then
        match attr_get (attrib child) "anchor" with
        | None => Raise (AssertionError "Anchor required for reference")
        | Some anchor =>
            let lines := lines ++ ["** " +:+ anchor +:+ Py.nl] in
            let lines := lines ++ [":PROPERTIES:" +:+ Py.nl] in
            let lines :=
              match attr_get (attrib child) "target" with
              | Some t => lines ++ [":REF_TARGET: " +:+ Py.strip t +:+ Py.nl]
              | None => lines
              end in
            lines ← match find "front" (children child) with
                    | Some front => _cvt_front_ref front lines
                    | None => mret lines
                    end;
            mret (lines ++ [":END:" +:+ Py.nl])
        end
      else mret lines
  end.

(** ** Tables *)

(** [list(e) if e is not None else \[\]] for the row group called [name]. *)
Definition group_rows (table : Element) (name : string) : list Element :=
  match find name (children table) with
  | Some e => children e
  | None => []
  end.

(** [len(x.text.strip()) if x.text else 0] *)
Definition cell_width (x : Element) : nat :=
  match text x with
  | Some s => if Py.nonempty s then String.length (Py.strip s) else 0
  | None => 0
  end.

(** One turn of the loop that computes [maxw]; [zip] stops at the shorter
    of its two lists. *)
Definition max_widths_step (maxw : list nat) (row : Element) : list nat :=
  let widths := map cell_width (children row) in
  match maxw with
  | [] => widths
  | _ :: _ => zip_with Nat.max widths maxw
  end.

Definition column_widths (allrows : list Element) : list nat :=
  map (Nat.add 2) (foldl max_widths_step [] allrows).

Definition table_rule (maxw : list nat) : string :=
  let step (st : string * bool) (width : nat) :=
    let '(rule, first) := st in
    ((if first then rule else rule +:+ "+") +:+ Py.repeat_str "-" width, false) in
  fst (foldl step ("|", true) maxw) +:+ "|" +:+ Py.nl.

(** Truth value of an optional string: [None] and the empty string are false. *)
Definition truthy (o : option string) : bool :=
  match o with
  | Some s => Py.nonempty s
  | None => false
  end.

(** One turn of the loop that computes [aligns], which starts as [None]. *)
Definition aligns_step (aligns : option (list (option string)))
    (row : Element) : option (list (option string)) :=
  let a := map (λ x, attr_get (attrib x) "align") (children row) in
  match aligns with
  | Some (x :: l) => Some (zip_with (λ x y, if truthy x then x else y) (x :: l) a)
  | Some [] | None => Some a
  end.

Definition column_aligns (allrows : list Element) : res (list string) :=
  match foldl aligns_step None allrows with
  | None => Raise TypeError
  | Some l =>
      Ok (map (λ x, match x with
                    | Some s => if Py.nonempty s then Py.first_char s else "l"
                    | None => "l"
                    end) l)
  end.

Definition get_row_text (width : nat) (align etext : string) : string :=
  let align :=
    if String.eqb align "c" then "^"
    else if String.eqb align "r" then ">"
    else if String.eqb align "l" then "<"
    else "" in
  "|" +:+ Py.format_s align width (" " +:+ etext +:+ " ").

(** [elt.text.strip()], or the empty string when [elt.text] is [None] *)
Definition cell_text (elt : Element) : string :=
  match text elt with
  | Some s => Py.strip s
  | None => ""
  end.

Definition row_text (maxw : list nat) (aligns : list string) (row : Element)
    : string :=
  foldl (λ rtext '(width, (align, elt)),
           rtext +:+ get_row_text width align (cell_text elt))
        "" (zip maxw (zip aligns (children row)))
  +:+ "|" +:+ Py.nl.

Definition align_row_text (maxw : list nat) (aligns : list string) : string :=
  foldl (λ rtext '(width, align),
           rtext +:+ get_row_text width align ("<" +:+ align +:+ ">"))
        "" (zip maxw aligns)
  +:+ "|" +:+ Py.nl.

(** One turn of the loop over the three row groups; the state is the output
    and the [aligned] flag. *)
Definition table_group (maxw : list nat) (aligns : list string) (rule : string)
    (st : list string * bool) (rows : list Element) : list string * bool :=
  match rows with
  | [] => st
  | _ :: _ =>
      let '(lines, aligned) := st in
      let lines := foldl (λ lines row, lines ++ [row_text maxw aligns row])
                         lines rows in
      let lines := if aligned then lines
                   else lines ++ [align_row_text maxw aligns] in
      (lines ++ [rule], true)
  end.

(** The caption lines that start [_cvt_table]. *)
Definition table_caption (table : Element) (lines : list string)
    : res (list string) :=
  lines ← match find "name" (children table) with
          | Some name =>
              t ← text_strip name;
              mret (lines ++ ["#+caption: " +:+ t +:+ Py.nl])
          | None => mret lines
          end;
  mret (add_elt_attr table "anchor" "name" lines).

Definition _cvt_table (table : Element) (lines : list string)
    : res (list string) :=
  lines ← table_caption table lines;
  let hrows := group_rows table "thead" in
  let brows := group_rows table "tbody" in
  let frows := group_rows table "tfoot" in
  let allrows := hrows ++ brows ++ frows in
  let maxw := column_widths allrows in
  let rule := table_rule maxw in
  aligns ← column_aligns allrows;
  let lines := lines ++ [rule] in
  mret (fst (foldl (table_group maxw aligns rule) (lines, false)
                   [hrows; brows; frows])).

(** ** Text reflow *)

Module Reflow.

(** Group 2 of the pattern of [_fill] at the start of [s]: a number, a dot
    and a character that is no digit (or the end of the text), or a dash
    or a star and a space; then one optional blank. *)
Definition marker_here (s : string) : option string :=
  let opt_blank (m rest : string) : string :=
    match rest with
    | String b _ => if Py.isblank b then m +:+ String b "" else m
    | EmptyString => m
    end in
  let '(digits, r) := Re.span Py.isdigit s in
  match Py.nonempty digits, r with
  | true, String "." EmptyString => Some (digits +:+ ".")
  | true, String "." (String d r') =>
      if Py.isdigit d then None
      else Some (opt_blank (digits +:+ "." +:+ String d "") r')
  | _, _ =>
      match s with
      | String c (String " " r') =>
          if Ascii.eqb c "-" || Ascii.eqb c "*"
          then Some (opt_blank (String c " ") r') else None
      | _ => None
      end
  end.

(** The [re.sub] of [_fill]: a newline, blanks (group 1) and a list marker
    (group 2) become a space, the marker, a newline and the blanks;
    [skip] counts the characters of the last match still to be passed. *)
Fixpoint sub_markers (skip : nat) (s : string) : string :=
  match s with
  | EmptyString => EmptyString
  | String c s' =>
      match skip with
      | S k => sub_markers k s'
      | O =>
          let '(blanks, r) := Re.span Py.isblank s' in
          match (if Ascii.eqb c Py.nl_char then marker_here r else None) with
          | Some m =>
              " " +:+ m +:+ Py.nl +:+ blanks
              +:+ sub_markers (String.length blanks + String.length m) s'
          | None => String c (sub_markers 0 s')
          end
      end
  end.

End Reflow.

Section Converter.

(** [textwrap.fill(text, width, subsequent_indent=..., break_on_hyphens=False)]
    of the Python library, and the [sec_refs] table as the collector left it. *)
Variable textwrap_fill : string → nat → string → string.
Variable sec_refs : gmap string nat.

Definition _fill (text : string) (indent : nat) : string :=
  Reflow.sub_markers 0 (textwrap_fill text 69 (Py.repeat_str " " indent)).

(** [tlines\[-1\] += text] *)
Fixpoint add_to_last (tlines : list string) (text : string)
    : res (list string) :=
  match tlines with
  | [] => Raise IndexError
  | [s] => Ok [s +:+ text]
  | s :: l => l' ← add_to_last l text; mret (s :: l')
  end.

Section Loops.

(** The recursive call at the level and mode of the loop. *)
Variable rec : Element → list string → res (list string).

(** [for child in elt: rec(child, lines)] *)
Definition each_child (cs : list Element) (lines : list string)
    : res (list string) :=
  for_each rec cs lines.

(** The loop over a section's children, which passes [title] by. *)
Fixpoint section_children (cs : list Element) (lines : list string)
    : res (list string) :=
  match cs with
  | [] => mret lines
  | c :: cs' =>
      if String.eqb (tag c) "title" then section_children cs' lines
      else lines ← rec c lines; section_children cs' lines
  end.

(** The loop of [_cvt_mid_back_text_elt]. *)
Fixpoint text_children (cs : list Element) (tlines : list string)
    : res (list string) :=
  match cs with
  | [] => mret tlines
  | c :: cs' =>
      tlines ← rec c tlines;
      tlines ← (if truthy (tail c)
                then t ← _unindent (tail c); add_to_last tlines t
                else mret tlines);
      text_children cs' tlines
  end.

(** [_cvt_mid_back_text_elt], given the children of its element. *)
Definition _cvt_mid_back_text_elt (cs : list Element) (text : string)
    (indent : nat) : res string :=
  tlines ← text_children cs [text];
  mret (_fill (Py.concat_str tlines) indent).

(** The loop over the term and definition pairs of a [dl]: the iterator
    running out ends it. *)
Fixpoint dl_pairs (cs : list Element) (lines : list string)
    : res (list string) :=
  match cs with
  | [] => mret lines
  | dt :: cs' =>
      term ← text_strip dt;
      match cs' with
      | [] => mret lines
      | dl :: cs'' =>
          itext ← _unindent (text dl);
          itext ← _cvt_mid_back_text_elt (children dl) (Py.lstrip itext) 2;
          dl_pairs cs'' (lines ++ ["- " +:+ term +:+ " :: " +:+ itext +:+ Py.nl])
      end
  end.

(** The loop over [elt.findall] of the [li] children *)
Fixpoint list_items (cs : list Element) (lines : list string)
    : res (list string) :=
  match cs with
  | [] => mret lines
  | item :: cs' =>
      if String.eqb (tag item) "li" then
        itext ← _unindent (text item);
        itext ← _cvt_mid_back_text_elt (children item) (Py.lstrip itext) 2;
        list_items cs' (lines ++ ["- " +:+ itext +:+ Py.nl])
      else list_items cs' lines
  end.

End Loops.

(** The loop over the children of [references]. *)
Fixpoint references_children (cs : list Element) (lines : list string)
    : res (list string) :=
  match cs with
  | [] => mret lines
  | c :: cs' =>
      if String.eqb (tag c) "name" then references_children cs' lines
      else lines ← _cvt_reference c lines; references_children cs' lines
  end.

(** The title of a section: its [title] attribute, or else its [name] child. *)
Definition section_title (attrs : list (string * string))
    (cs : list Element) : res string :=
  let title := match attr_get attrs "title" with
               | Some t => Py.strip t
               | None => ""
               end in
  if Py.nonempty title then mret title
  else match find "name" cs with
       | Some e => text_strip e
       | None => mret title
       end.

(** The [:hanging t] and [:compact t] attributes of a [dl]. *)
Definition dl_attrs (attrs : list (string * string)) : string :=
  let hanging := attr_get attrs "hanging" in
  (if bool_decide (hanging = Some "true") || bool_decide (hanging = Some "yes")
   then " :hanging t" else "")
  +:+ (if bool_decide (attr_get attrs "spacing" = Some "compact")
       then " :compact t" else "").

Definition list_attrs (attrs : list (string * string)) : string :=
  if bool_decide (attr_get attrs "spacing" = Some "compact")
  then " :compact t" else "".

Definition attr_rfc_line (attrs : string) (lines : list string) : list string :=
  if Py.nonempty attrs then lines ++ ["#+ATTR_RFC:" +:+ attrs +:+ Py.nl]
  else lines.

Definition stars (level : nat) : string := Py.repeat_str "*" (level + 1).

Fixpoint _cvt_mid_back (elt : Element) (lines : list string) (mid : bool)
    (level : nat) {struct elt} : res (list string) :=
  match elt with
  | Elt tg attrs txt _ cs =>
      if String.eqb tg "section" then
        title ← section_title attrs cs;
        lines ←
          (if Py.nonempty title then
             let lines := lines ++ [Py.nl +:+ stars level +:+ " " +:+ title +:+ Py.nl] in
             let anchor := Py.strip (attr_get_str attrs "anchor") in
             if Py.nonempty anchor then
               match sec_refs !! anchor with
               | None => Raise (KeyError anchor)
               | Some n =>
                   if 0 <? n then
                     mret (lines ++ [":PROPERTIES:" +:+ Py.nl;
                                     ":CUSTOM_ID: " +:+ anchor +:+ Py.nl;
                                     ":END:" +:+ Py.nl])
                   else mret lines
               end
             else mret lines
           else mret lines);
        section_children (λ c l, _cvt_mid_back c l mid (S level)) cs
                         (lines ++ [Py.nl])
      else if String.eqb tg "references" then
        _ ← assert_that (negb mid) "references not allowed in middle section";
        lines ← match find "name" cs with
                | Some title =>
                    t ← text_strip title;
                    mret (lines ++ [Py.nl +:+ stars level +:+ " " +:+ t
                                    +:+ Py.nl +:+ Py.nl])
                | None => mret lines
                end;
        references_children cs lines
      else if String.eqb tg "t" then
        ptext ← _unindent txt;
        ptext ← _cvt_mid_back_text_elt (λ c l, _cvt_mid_back c l mid level)
                   cs (Py.lstrip ptext) 0;
        let ptext := Py.sub_blank_lines 0 ptext in
        let ptext :=
          if Py.endswith (Py.nl +:+ Py.nl) ptext then ptext
          else if Py.endswith Py.nl ptext then ptext +:+ Py.nl
          else ptext +:+ Py.nl +:+ Py.nl in
        mret (lines ++ [ptext])
      else if String.eqb tg "xref" then
        match attr_get attrs "target" with
        | None => Raise (KeyError "target")
        | Some target =>
            _ ← assert_that (Py.nonempty target) "xref missing target attribute";
            let link := if bool_decide (is_Some (sec_refs !! target))
                        then "[[#" +:+ target +:+ "]]"
                        else "[[" +:+ target +:+ "]]" in
            each_child (λ c l, _cvt_mid_back c l mid level) cs (lines ++ [link])
        end
      else if String.eqb tg "table" then
        _cvt_table elt lines
      else if String.eqb tg "dl" then
        let lines := lines ++ [Py.nl] in
        let lines := attr_rfc_line (dl_attrs attrs) lines in
        lines ← dl_pairs (λ c l, _cvt_mid_back c l mid level) cs lines;
        mret (lines ++ [Py.nl])
      else if String.eqb tg "ol" || String.eqb tg "ul" then
        let lines := lines ++ [Py.nl] in
        let lines := attr_rfc_line (list_attrs attrs) lines in
        lines ← list_items (λ c l, _cvt_mid_back c l mid level) cs lines;
        mret (lines ++ [Py.nl])
      else if String.eqb tg "figure" then
        name ← match find "name" cs with
               | Some e => text_strip e
               | None => mret ""
               end;
        match find "artwork" cs with
        | None => Raise AttributeError
        | Some a =>
            let lines := if Py.nonempty name
                         then lines ++ ["#+caption: " +:+ name +:+ Py.nl]
                         else lines in
            let lines := add_elt_attr elt "anchor" "name" lines in
            mret (lines ++ ["#+begin_src" +:+ Py.nl +:+ Py.fmt_opt (text a)
                            +:+ Py.nl +:+ "#+end_src" +:+ Py.nl])
        end
      else
        each_child (λ c l, _cvt_mid_back c l mid (S level)) cs lines
  end.

End Converter.

(** ** Process-wide state *)

(** Python's [set] of strings, as the list of its elements in the order in
    which a loop over the set meets them.  Where [add] puts a new element is
    decided by the hash of the string and the state of the table, so it is
    left open: adding an element the set holds changes nothing, adding a new
    one gives some arrangement of the old elements and the new one. *)
Class PySet := {
  set_add : string → list string → list string;
  set_add_elem : ∀ x l, x ∈ l → set_add x l = l;
  set_add_new : ∀ x l, x ∉ l → set_add x l ≡ₚ x :: l
}.

(** The class [Globals]. *)
Record Globals := {
  did_author : bool;
  keywords : list string;
  sec_refs : gmap string nat
}.

Definition glb0 : Globals :=
  {| did_author := false; keywords := []; sec_refs := ∅ |}.

(** ** The reference collector *)

Definition collect_anchor (refs : gmap string nat) (elt : Element)
    : gmap string nat :=
  let anchor := attr_get_str (attrib elt) "anchor" in
  if Py.nonempty anchor then <[anchor := 0]> refs else refs.

Definition count_target (refs : gmap string nat) (elt : Element)
    : gmap string nat :=
  let target := attr_get_str (attrib elt) "target" in
  if Py.nonempty target then
    match refs !! target with
    | Some n => <[target := n + 1]> refs
    | None => refs
    end
  else refs.

Definition gather_refs (root : Element) (refs : gmap string nat)
    : gmap string nat :=
  let refs := foldl collect_anchor refs (findall_below "section" root) in
  foldl count_target refs (findall_below "xref" root).

Definition gather_section_refs (root : Element) (glb : Globals) : Globals :=
  {| did_author := did_author glb;
     keywords := keywords glb;
     sec_refs := gather_refs root (sec_refs glb) |}.

(** ** The attributes of the [rfc] element *)

Definition rfc_attr_map : list (string * string) :=
  [ ("category", "RFC_CATEGORY");
    ("consensus", "RFC_CONSENSUS");
    ("docName", "RFC_NAME");
    ("ipr", "RFC_IPR");
    ("obsoletes", "RFC_OBSOLETES");
    ("submissionType", "RFC_STREAM");
    ("tocDepth", "RFC_TOC_DEPTH");
    ("updates", "RFC_UPDATES");
    ("version", "RFC_XML_VERSION") ].

Definition rfc_attr (kv : string * string) (lines : list string)
    : res (list string) :=
  let '(k, v) := kv in
  if String.eqb k "docName" then
    match Re.match_docname v with
    | None => Raise (AssertionError "Invalid docName format")
    | Some (name, version) =>
        mret (lines ++ ["#+RFC_NAME: " +:+ name +:+ Py.nl;
                        "#+RFC_VERSION: " +:+ version +:+ Py.nl])
    end
  else
    match attr_get rfc_attr_map k with
    | Some name =>
        if (String.eqb k "obsoletes" || String.eqb k "updates")
           && negb (Py.nonempty v)
        then mret lines
        else mret (lines ++ ["#+" +:+ name +:+ ": " +:+ v +:+ Py.nl])
    | None => mret lines
    end.

Definition _cvt_rfc_attr (elt : Element) (lines : list string)
    : res (list string) :=
  lines ← for_each rfc_attr (attrib elt) lines;
  mret (lines ++ [Py.nl]).

(** ** Front matter and the whole document *)

Section Document.

Variable textwrap_fill : string → nat → string → string.
Context {set_impl : PySet}.

Definition quoted (x : string) : string := Py.dquote +:+ x +:+ Py.dquote.

Definition with_did_author (glb : Globals) : Globals :=
  {| did_author := true; keywords := keywords glb; sec_refs := sec_refs glb |}.

Definition with_keyword (k : string) (glb : Globals) : Globals :=
  {| did_author := did_author glb;
     keywords := set_add k (keywords glb);
     sec_refs := sec_refs glb |}.

(** The [author] branch of [convert_xml_front]. *)
Definition front_author (attrs : list (string * string)) (cs : list Element)
    (st : list string * Globals) : res (list string * Globals) :=
  let '(lines, glb) := st in
  let fname := attr_get attrs "fullname" in
  email ← match find "address" cs with
          | Some e =>
              match find "email" (children e) with
              | Some e => text_strip e
              | None => mret ""
              end
          | None => mret ""
          end;
  orgs ← match find "organization" cs with
         | Some e =>
             t ← text_strip e;
             mret (t, Py.strip (attr_get_str (attrib e) "abbrev"))
         | None => mret ("", "")
         end;
  let '(org, org_abbrev) := orgs in
  if did_author glb then
    let org := if Py.nonempty org_abbrev
               then "(" +:+ quoted org_abbrev +:+ " " +:+ quoted org +:+ ")"
               else quoted org in
    let add := "(" +:+ quoted (Py.fmt_opt fname) +:+ " " +:+ quoted email
               +:+ " " +:+ org +:+ ")" in
    mret (lines ++ ["#+RFC_ADD_AUTHOR: " +:+ add +:+ Py.nl], glb)
  else
    match fname with
    | None => Raise TypeError
    | Some fname =>
        let lines := lines ++ ["#+AUTHOR: " +:+ fname +:+ Py.nl] in
        let lines := if Py.nonempty email
                     then lines ++ ["#+EMAIL: " +:+ email +:+ Py.nl] else lines in
        let lines := if Py.nonempty org
                     then lines ++ ["#+AFFILIATION: " +:+ org +:+ Py.nl] else lines in
        let lines := if Py.nonempty org_abbrev
                     then lines ++ ["#+RFC_SHORT_ORG: " +:+ org_abbrev +:+ Py.nl]
                     else lines in
        mret (lines, with_did_author glb)
    end.

Fixpoint convert_xml_front (elt : Element) (st : list string * Globals)
    (level : nat) {struct elt} : res (list string * Globals) :=
  match elt with
  | Elt tg attrs _ _ cs =>
      let '(lines, glb) := st in
      if String.eqb tg "title" then
        t ← text_strip elt;
        mret (add_elt_attr elt "abbrev" "RFC_SHORT_TITLE"
                (lines ++ ["#+TITLE: " +:+ t +:+ Py.nl]), glb)
      else if String.eqb tg "author" then front_author attrs cs st
      else if String.eqb tg "abstract" then
        let lines := lines ++ [Py.nl +:+ "#+begin_abstract" +:+ Py.nl] in
        lines ← for_each
                  (λ c l, _cvt_mid_back textwrap_fill (sec_refs glb) c l true (S level))
                  cs lines;
        mret (lines ++ ["#+end_abstract" +:+ Py.nl], glb)
      else if String.eqb tg "area" then
        t ← text_strip elt;
        mret (lines ++ ["#+RFC_AREA: " +:+ t +:+ Py.nl], glb)
      else if String.eqb tg "workgroup" then
        t ← text_strip elt;
        mret (lines ++ ["#+RFC_WORKGROUP: " +:+ t +:+ Py.nl], glb)
      else if String.eqb tg "keyword" then
        t ← text_strip elt;
        mret (lines, with_keyword t glb)
      else
        for_each (λ c st, convert_xml_front c st (S level)) cs st
  end.

Definition convert_xml_middle (elt : Element) (st : list string * Globals)
    : res (list string * Globals) :=
  lines ← _cvt_mid_back textwrap_fill (sec_refs st.2) elt st.1 true 0;
  mret (lines, st.2).

Definition convert_xml_back (elt : Element) (st : list string * Globals)
    : res (list string * Globals) :=
  lines ← _cvt_mid_back textwrap_fill (sec_refs st.2) elt st.1 false 0;
  mret (lines, st.2).

(** The keywords directive for the list of quoted keywords. *)
Definition keywords_line (keylist : list string) : string :=
  "#+RFC_KEYWORDS: (" +:+ Py.join " " (rev keylist) +:+ ")" +:+ Py.nl.

(** The [front] branch of the loop of [top_level]. *)
Definition top_level_front (elt : Element) (st : list string * Globals)
    : res (list string * Globals) :=
  st ← for_each (λ c st, convert_xml_front c st 0) (children elt) st;
  let '(lines, glb) := st in
  let keylist := map quoted (keywords glb) in
  match keylist with
  | [] => mret (lines, glb)
  | _ :: _ => mret (lines ++ [keywords_line keylist], glb)
  end.

(** One turn of the loop of [top_level] over the children of [rfc]. *)
Definition top_level_child (elt : Element) (st : list string * Globals)
    : res (list string * Globals) :=
  if String.eqb (tag elt) "front" then top_level_front elt st
  else if String.eqb (tag elt) "middle" then
    for_each convert_xml_middle (children elt) st
  else if String.eqb (tag elt) "back" then
    for_each convert_xml_back (children elt) st
  else mret st.

Definition top_level (root : Element) (glb : Globals)
    : res (list string * Globals) :=
  if String.eqb (tag root) "rfc" then
    lines ← _cvt_rfc_attr root [];
    for_each top_level_child (children root) (lines, glb)
  else mret ([], glb).

(** [convert_xml_to_markdown], from the parsed tree on. *)
Definition convert_xml_to_markdown (root : Element) (glb : Globals)
    : res (string * Globals) :=
  let glb := gather_section_refs root glb in
  r ← top_level root glb;
  mret (Py.concat_str r.1, r.2).

End Document.

(** ** Values for running the converter on examples *)

(** A reflow that leaves the text as it is. *)
Definition fill_id (text : string) (width : nat) (indent : string) : string :=
  text.

(** A set whose loop meets the elements in the order of their insertion. *)
Definition add_last (x : string) (l : list string) : list string :=
  if bool_decide (x ∈ l) then l else l ++ [x].

(** A set whose loop meets the element added last first. *)
Definition add_first (x : string) (l : list string) : list string :=
  if bool_decide (x ∈ l) then l else x :: l.

Definition appending_set : PySet.
Proof.
  refine {| set_add := add_last |}; intros x l Hx; unfold add_last.
  - by rewrite bool_decide_eq_true_2.
  - rewrite bool_decide_eq_false_2 by done.
    symmetry. apply Permutation_cons_append.
Defined.

Definition prepending_set : PySet.
Proof.
  refine {| set_add := add_first |}; intros x l Hx; unfold add_first.
  - by rewrite bool_decide_eq_true_2.
  - by rewrite bool_decide_eq_false_2.
Defined.

Module Ex.

(** An element with no tail. *)
Definition elt (tg : string) (attrs : list (string * string))
    (txt : option string) (cs : list Element) : Element :=
  Elt tg attrs txt None cs.

Definition td (s : string) : Element := elt "td" [] (Some s) [].
Definition tr (cells : list Element) : Element := elt "tr" [] None cells.

End Ex.

(** ** Definitions used to state the properties *)

(** The non-empty [anchor] attributes of a list of elements. *)
Definition anchors_of (elts : list Element) : list string :=
  filter (λ a, a ≠ "") (map (λ e, attr_get_str (attrib e) "anchor") elts).

(** The keywords the front-matter converter collects below an element, in
    the order in which it comes to them: the stripped texts of the [keyword]
    elements it reaches through elements it has no branch for. *)
Fixpoint keyword_texts (e : Element) : list string :=
  match e with
  | Elt tg _ txt _ cs =>
      if bool_decide (tg ∈ ["title"; "author"; "abstract"; "area"; "workgroup"])
      then []
      else if String.eqb tg "keyword" then [Py.strip (default "" txt)]
      else flat_map keyword_texts cs
  end.

(** [add] for each string of a list in turn. *)
Definition add_all {set_impl : PySet} (kw : list string) (ks : list string)
    : list string :=
  foldl (λ kw k, set_add k kw) kw ks.

(** The width of the cell of a row at position [j], zero when the row has no
    such cell. *)
Definition cell_width_at (j : nat) (row : Element) : nat :=
  default 0 (cell_width <$> children row !! j).

(** The result of a run with [f] applied to its value. *)
Definition res_map {A B} (f : A → B) (m : res A) : res B :=
  match m with
  | Ok a => Ok (f a)
  | Raise e => Raise e
  end.

(** A step that appends what it would append to the empty output. *)
Definition framed {A} (body : A → list string → res (list string)) (x : A) : Prop :=
  ∀ lines, body x lines = res_map (app lines) (body x []).

(** The errors the dispatcher can end in on the element [e] with the table
    [refs]: an attribute of [None], a de-indent of [None], a failed
    assertion, an [xref] without [target], or the lookup of the stripped
    anchor of a section at or below [e] in a table that has no such key. *)
Definition known_error (refs : gmap string nat) (e : Element) (err : exn) : Prop :=
  err = AttributeError
  ∨ err = TypeError
  ∨ (∃ msg, err = AssertionError msg)
  ∨ err = KeyError "target"
  ∨ ∃ s, s ∈ subtree e ∧ tag s = "section"
         ∧ Py.nonempty (Py.strip (attr_get_str (attrib s) "anchor")) = true
         ∧ err = KeyError (Py.strip (attr_get_str (attrib s) "anchor"))
         ∧ refs !! Py.strip (attr_get_str (attrib s) "anchor") = None.

(** What a step of the conversion may do to the state: it appends to the
    output, leaves the reference table alone, never clears the author flag
    and never takes a keyword out of the set. *)
Definition state_grows (st st' : list string * Globals) : Prop :=
  st.1 `prefix_of` st'.1
  ∧ sec_refs st'.2 = sec_refs st.2
  ∧ (did_author st.2 = true → did_author st'.2 = true)
  ∧ (∀ k, k ∈ keywords st.2 → k ∈ keywords st'.2).

(** The errors that come from the input document alone: a missing text, a
    missing attribute, a failed assertion. *)
Definition input_error (err : exn) : Prop :=
  err = AttributeError
  ∨ err = TypeError
  ∨ (∃ msg, err = AssertionError msg)
  ∨ err = KeyError "target".

(** Every section below [root] has an anchor that stripping leaves as it
    is. *)
Definition anchors_stripped (root : Element) : bool :=
  forallb (λ s, String.eqb (Py.strip (attr_get_str (attrib s) "anchor"))
                           (attr_get_str (attrib s) "anchor"))
          (findall_below "section" root).

(** The number of elements of [elts] whose [target] attribute is the
    non-empty string [k]. *)
Definition target_count (k : string) (elts : list Element) : nat :=
  length (filter (λ e, attr_get_str (attrib e) "target" = k ∧ k ≠ "") elts).

(** The rows of the three groups of a table, head first. *)
Definition table_rows (table : Element) : list Element :=
  group_rows table "thead" ++ group_rows table "tbody" ++ group_rows table "tfoot".

(** The non-empty [align] attributes of the cells at position [j], from the
    first row to the last. *)
Definition column_align_attrs (j : nat) (rows : list Element) : list string :=
  filter (λ a, a ≠ "")
         (omap (λ row, children row !! j ≫= λ x, attr_get (attrib x) "align") rows).

(** The alignment letter of the column at position [j]. *)
Definition column_align (j : nat) (rows : list Element) : string :=
  match column_align_attrs j rows with
  | a :: _ => Py.first_char a
  | [] => "l"
  end.

(** The letter that [column_aligns] makes of an [align] attribute. *)
Definition align_letter (x : option string) : string :=
  match x with
  | Some s => if Py.nonempty s then Py.first_char s else "l"
  | None => "l"
  end.

(** Two and three newlines. *)
Definition nl2 : string := String Py.nl_char (String Py.nl_char "").
Definition nl3 : string := String Py.nl_char nl2.

(** Every character of [s] is in the class [cls]. *)
Fixpoint all_chars (cls : ascii → bool) (s : string) : bool :=
  match s with
  | EmptyString => true
  | String c s' => cls c && all_chars cls s'
  end.

(** The number of newlines of a text. *)
Fixpoint count_nl (s : string) : nat :=
  match s with
  | EmptyString => 0
  | String c s' => (if Ascii.eqb c Py.nl_char then 1 else 0) + count_nl s'
  end.

(** The de-indented tail of an element, empty when it has none. *)
Definition tail_text (c : Element) : string :=
  match tail c with
  | Some s => if Py.nonempty s then Py.sub_newline_blanks false s else ""
  | None => ""
  end.

(** The text that the children of a text element stand for: for each child
    in turn, the fragments that [rec0] gives for it, joined, and its tail. *)
Fixpoint inline_text (rec0 : Element → res (list string)) (cs : list Element)
    : res string :=
  match cs with
  | [] => mret ""
  | c :: cs' =>
      frags ← rec0 c;
      rest ← inline_text rec0 cs';
      mret (Py.concat_str frags +:+ tail_text c +:+ rest)
  end.

Module Docs.

Definition xref_refs : gmap string nat := {["sec-x" := 0]}.

Definition small_table : Element :=
  Ex.elt "table" [] None
    [Ex.elt "thead" [] None [Ex.tr [Ex.td "Name"; Ex.td "Size"]];
     Ex.elt "tbody" [] None [Ex.tr [Ex.td "alpha"; Ex.td "12"];
                             Ex.tr [Ex.td "beta"; Ex.td "7"]]].

Definition keywords_front : Element :=
  Ex.elt "front" [] None
    [Ex.elt "keyword" [] (Some "alpha") []; Ex.elt "keyword" [] (Some "beta") []].

Definition keywords_doc : Element := Ex.elt "rfc" [] None [keywords_front].

(** A section whose anchor is one space, and a paragraph that refers to it. *)
Definition blank_anchor_section : Element :=
  Ex.elt "section" [("title", "Scope"); ("anchor", " ")] None [].

Definition blank_anchor_doc : Element :=
  Ex.elt "rfc" [] None
    [Ex.elt "middle" [] None
       [blank_anchor_section;
        Ex.elt "t" [] (Some "See ") [Ex.elt "xref" [("target", " ")] None []]]].

(** Two sections whose anchors differ by a trailing space, and a paragraph
    that refers to the second one. *)
Definition padded_twin_section : Element :=
  Ex.elt "section" [("title", "First"); ("anchor", "a ")] None [].

Definition twin_anchor_doc : Element :=
  Ex.elt "rfc" [] None
    [Ex.elt "middle" [] None
       [padded_twin_section;
        Ex.elt "section" [("title", "Second"); ("anchor", "a")] None [];
        Ex.elt "t" [] (Some "See ") [Ex.elt "xref" [("target", "a")] None []]]].

(** A section whose anchor ends in a space. *)
Definition padded_anchor_doc : Element :=
  Ex.elt "rfc" [] None
    [Ex.elt "middle" [] None
       [Ex.elt "section" [("title", "Scope"); ("anchor", "sec-x ")] None []]].

(** A table of one cell. *)
Definition one_cell_table : Element :=
  Ex.elt "table" [] None [Ex.elt "tbody" [] None [Ex.tr [Ex.td "a"]]].

(** A table whose second row is shorter than its first. *)
Definition ragged_table : Element :=
  Ex.elt "table" [] None
    [Ex.elt "tbody" [] None [Ex.tr [Ex.td "a"; Ex.td "bb"]; Ex.tr [Ex.td "c"]]].

(** A reference whose author has no organization. *)
Definition author_only_reference : Element :=
  Ex.elt "reference" [("anchor", "REF1")] None
    [Ex.elt "front" [] None
       [Ex.elt "title" [] (Some "A Title") [];
        Ex.elt "author" [("fullname", "A. Author")] None []]].

(** A document whose section holds a paragraph with no text. *)
Definition textless_paragraph_doc : Element :=
  Ex.elt "rfc" [] None
    [Ex.elt "middle" [] None
       [Ex.elt "section" [("title", "Scope"); ("anchor", "sec-x")] None
          [Ex.elt "t" [] None []]]].

(** A table whose head has no row. *)
Definition rowless_table : Element :=
  Ex.elt "table" [("anchor", "tab-x")] None [Ex.elt "thead" [] None []].

Definition plain_paragraph : Element := Ex.elt "t" [] (Some "Hello") [].


Definition titled_reference : Element :=
  Ex.elt "reference" [("anchor", "REF1"); ("target", " http://example.org ")]
    None
    [Ex.elt "front" [] None [Ex.elt "title" [] (Some "A Title") []]].

(** Two rows of two cells: the first column is centered by the second row,
    the second column is set right by the first row and left by the
    second. *)
Definition aligned_rows : list Element :=
  [Ex.tr [Ex.td "a"; Ex.elt "td" [("align", "right")] (Some "b") []];
   Ex.tr [Ex.elt "td" [("align", "center")] (Some "c") [];
          Ex.elt "td" [("align", "left")] (Some "d") []]].



(** A list of two items with a child between them that is no item. *)
Definition two_item_list : Element :=
  Ex.elt "ul" [] None
    [Ex.elt "li" [] (Some "one") [];
     Ex.elt "t" [] (Some "stray") [];
     Ex.elt "li" [] (Some "two") []].

End Docs.

(** * Properties *)

Set Warnings "-clear-no-such-hyp".

Import Docs.

(** ** Induction on the document tree *)

Lemma Element_ind' (P : Element → Prop) :
  (∀ tg a tx tl cs, Forall P cs → P (Elt tg a tx tl cs)) → ∀ e, P e.
Proof.
  intros step. fix IH 1. intros [tg a tx tl cs]. apply step.
  induction cs as [|c cs IHcs]; constructor; [apply IH | exact IHcs].
Qed.

(** ** The error monad *)

Lemma bind_Ok {A B} (m : res A) (f : A → res B) b :
  (m ≫= f) = Ok b ↔ ∃ a, m = Ok a ∧ f a = Ok b.
Proof.
  destruct m as [a|e]; simpl; split.
  - eauto.
  - by intros (a' & [= <-] & ?).
  - done.
  - by intros (a' & ? & ?).
Qed.

Lemma mret_Ok {A} (a b : A) : (mret a : res A) = Ok b → a = b.
Proof. by intros [= ->]. Qed.

(** Takes a successful run apart into the successful runs of its steps. *)
Ltac res_inv :=
  repeat match goal with
  | H : (_ ≫= _) = Ok _ |- _ => apply bind_Ok in H as (? & ? & H)
  | H : mret _ = Ok _ |- _ => apply mret_Ok in H; subst
  | H : Ok _ = Ok _ |- _ => injection H as H; subst
  | H : Raise _ = Ok _ |- _ => discriminate H
  | H : assert_that ?b _ = Ok _ |- _ => clear H
  | H : context [match ?x with _ => _ end] |- _ =>
      match type of H with _ = Ok _ => destruct x eqn:? end
  end.

(** ** The output only grows *)

Lemma add_elt_attr_grows e attr name lines :
  lines `prefix_of` add_elt_attr e attr name lines.
Proof. unfold add_elt_attr. case_match; [by apply prefix_app_r | done]. Qed.

Lemma attr_rfc_line_grows attrs lines :
  lines `prefix_of` attr_rfc_line attrs lines.
Proof. unfold attr_rfc_line. case_match; [by apply prefix_app_r | done]. Qed.

(** Proves [l `prefix_of` out] by walking back through what was appended. *)
Ltac grows_step :=
  first
    [ reflexivity
    | apply prefix_app_r
    | match goal with
      | H : ?l `prefix_of` ?x |- _ `prefix_of` ?x => etrans; [|exact H]
      | |- _ `prefix_of` add_elt_attr _ _ _ _ =>
          etrans; [|apply add_elt_attr_grows]
      | |- _ `prefix_of` attr_rfc_line _ _ =>
          etrans; [|apply attr_rfc_line_grows]
      end ].
Ltac grows := repeat case_match; repeat grows_step.

Lemma for_each_grows {A} (body : A → list string → res (list string)) l :
  Forall (λ x, ∀ s out, body x s = Ok out → s `prefix_of` out) l →
  ∀ s out, for_each body l s = Ok out → s `prefix_of` out.
Proof.
  induction 1 as [|x l Hx _ IH]; intros s out H; simpl in H; res_inv; [done|].
  etrans; [by eapply Hx | by eapply IH].
Qed.

Lemma _cvt_front_ref_grows front lines out :
  _cvt_front_ref front lines = Ok out → lines `prefix_of` out.
Proof. unfold _cvt_front_ref. intros H. res_inv; grows. Qed.

Lemma _cvt_reference_grows c lines out :
  _cvt_reference c lines = Ok out → lines `prefix_of` out.
Proof.
  unfold _cvt_reference. intros H.
  destruct (if Py.contains _ _ then _ else _); res_inv;
    try match goal with H : _cvt_front_ref _ _ = _ |- _ =>
      apply _cvt_front_ref_grows in H end;
    grows.
Qed.

Lemma references_children_grows cs : ∀ lines out,
  references_children cs lines = Ok out → lines `prefix_of` out.
Proof.
  induction cs as [|c cs IH]; simpl; intros lines out H; res_inv; [done|eauto|].
  etrans; [by eapply _cvt_reference_grows | eauto].
Qed.

Lemma table_group_grows maxw aligns rule st rows :
  st.1 `prefix_of` (table_group maxw aligns rule st rows).1.
Proof.
  destruct st as [lines aligned], rows as [|r rows]; [done|].
  cbn [table_group fst]. apply prefix_app_r.
  assert (∀ rs l, l `prefix_of`
      foldl (λ lines row, lines ++ [row_text maxw aligns row]) l rs) as Hrows.
  { induction rs as [|r' rs IH]; intros l; simpl; [done|].
    etrans; [|apply IH]. by apply prefix_app_r. }
  destruct aligned; [apply Hrows|].
  apply prefix_app_r, Hrows.
Qed.

Lemma table_caption_grows table lines out :
  table_caption table lines = Ok out → lines `prefix_of` out.
Proof. unfold table_caption. intros H. res_inv; grows. Qed.

Lemma _cvt_table_grows table lines out :
  _cvt_table table lines = Ok out → lines `prefix_of` out.
Proof.
  unfold _cvt_table. intros H. res_inv.
  match goal with H : table_caption _ _ = _ |- _ =>
    apply table_caption_grows in H; etrans; [exact H|] end.
  cbn [foldl].
  repeat (etrans; [|apply table_group_grows]). cbn [fst]. by apply prefix_app_r.
Qed.

Section Grows.
Variable fill : string → nat → string → string.
Variable refs : gmap string nat.
Variable rec : Element → list string → res (list string).

Lemma section_children_grows cs :
  Forall (λ c, ∀ s out, rec c s = Ok out → s `prefix_of` out) cs →
  ∀ s out, section_children rec cs s = Ok out → s `prefix_of` out.
Proof.
  induction 1 as [|c cs Hc _ IH]; intros s out H; simpl in H; res_inv;
    [done|eauto|].
  etrans; [by eapply Hc | by eapply IH].
Qed.

Lemma dl_pairs_grows cs : ∀ lines out,
  dl_pairs fill rec cs lines = Ok out → lines `prefix_of` out.
Proof.
  cut (∀ n cs, length cs ≤ n → ∀ lines out,
         dl_pairs fill rec cs lines = Ok out → lines `prefix_of` out).
  { intros Hn. by apply (Hn (length cs)). }
  induction n as [|n IH]; intros [|dt [|dl cs']] Hlen lines out H;
    simpl in *; res_inv; try done; try lia.
  etrans; [|eapply IH; [|eassumption]]; [by apply prefix_app_r|lia].
Qed.

Lemma list_items_grows cs : ∀ lines out,
  list_items fill rec cs lines = Ok out → lines `prefix_of` out.
Proof.
  induction cs as [|c cs IH]; simpl; intros lines out H; res_inv; [done| |eauto].
  etrans; [|by eapply IH]. by apply prefix_app_r.
Qed.

End Grows.

(** Every fragment the dispatcher was handed is still there, in its place,
    when the dispatcher returns: it only appends. *)
Lemma _cvt_mid_back_grows fill refs e : ∀ lines mid level out,
  _cvt_mid_back fill refs e lines mid level = Ok out → lines `prefix_of` out.
Proof.
  induction e as [tg attrs txt tl cs IH] using Element_ind'.
  intros lines mid level out H. cbn [_cvt_mid_back] in H.
  repeat match type of H with
         | (if ?b then _ else _) = _ => destruct b eqn:?
         end.
  - apply bind_Ok in H as (title & _ & H).
    apply bind_Ok in H as (lines' & Hl & H).
    apply section_children_grows in H.
    + etrans; [|exact H]. apply prefix_app_r. res_inv; grows.
    + eapply Forall_impl; [exact IH|]. intros ? Hc ? ?. apply Hc.
  - res_inv; match goal with H : references_children _ _ = _ |- _ =>
      apply references_children_grows in H end; grows.
  - res_inv. grows.
  - res_inv; (match goal with H : each_child _ _ _ = _ |- _ =>
      apply for_each_grows in H end;
      [grows | eapply Forall_impl; [exact IH|]; intros ? Hc ? ?; apply Hc]).
  - by eapply _cvt_table_grows.
  - res_inv. match goal with H : dl_pairs _ _ _ _ = _ |- _ =>
      apply dl_pairs_grows in H end. grows.
  - res_inv. match goal with H : list_items _ _ _ _ = _ |- _ =>
      apply list_items_grows in H end. grows.
  - res_inv; grows.
  - apply for_each_grows in H; [done|].
    eapply Forall_impl; [exact IH|]. intros ? Hc ? ?. apply Hc.
Qed.

Lemma nonempty_true s : Py.nonempty s = true ↔ s ≠ "".
Proof. by destruct s. Qed.

Lemma nonempty_false s : Py.nonempty s = false ↔ s = "".
Proof. by destruct s. Qed.

(** ** Cross-references *)

(** C2.  An [xref] element whose [target] attribute is a non-empty string
    [target] appends one link and then converts its children after it.  The
    link is the internal link [[[#target]]] when [target] is a key of the
    reference table, whatever its count, zero included, and the link
    [[[target]]] to the raw target string when it is no key.  So every output
    of a successful conversion holds the link right after the fragments that
    were there before, and an [xref] without children yields just the link. *)
Theorem xref_link_by_table_key fill refs attrs txt tl cs lines mid level target :
  attr_get attrs "target" = Some target →
  target ≠ "" →
  let xref := Elt "xref" attrs txt tl cs in
  let internal := "[[#" +:+ target +:+ "]]" in
  let external := "[[" +:+ target +:+ "]]" in
  let link := if bool_decide (target ∈ dom refs) then internal else external in
  (∀ n, refs !! target = Some n → link = internal)
  ∧ (refs !! target = None → link = external)
  ∧ _cvt_mid_back fill refs xref lines mid level
    = each_child (λ c l, _cvt_mid_back fill refs c l mid level) cs (lines ++ [link])
  ∧ (∀ out, _cvt_mid_back fill refs xref lines mid level = Ok out →
       ∃ rest, out = lines ++ link :: rest)
  ∧ (cs = [] → _cvt_mid_back fill refs xref lines mid level = Ok (lines ++ [link])).
Proof.
  intros Htarget Hne xref internal external link.
  assert (_cvt_mid_back fill refs xref lines mid level
    = each_child (λ c l, _cvt_mid_back fill refs c l mid level) cs (lines ++ [link]))
    as Heq.
  { subst xref link. cbn [_cvt_mid_back String.eqb Ascii.eqb Bool.eqb].
    rewrite Htarget. apply nonempty_true in Hne. rewrite Hne. cbn.
    rewrite (bool_decide_ext (is_Some (refs !! target)) (target ∈ dom refs));
      [done | by rewrite elem_of_dom]. }
  split_and!.
  - intros n Hn. subst link. rewrite bool_decide_eq_true_2; [done|].
    apply elem_of_dom. eauto.
  - intros Hn. subst link. rewrite bool_decide_eq_false_2; [done|].
    by apply not_elem_of_dom.
  - exact Heq.
  - intros out Hout. rewrite Heq in Hout.
    apply for_each_grows in Hout as [rest ->].
    + exists rest. by rewrite <- (assoc_L (++)).
    + apply Forall_forall. intros c _ s out'. apply _cvt_mid_back_grows.
  - intros ->. by rewrite Heq.
Qed.

Lemma xref_link_by_table_key_witness :
  attr_get [("target", "sec-x")] "target" = Some "sec-x"
  ∧ "sec-x" ≠ ""
  ∧ _cvt_mid_back fill_id xref_refs
      (Elt "xref" [("target", "sec-x")] None None []) [] true 0
    = Ok ["[[#sec-x]]"].
Proof.
  split; [reflexivity|]. split; [discriminate|].
  pose proof (xref_link_by_table_key fill_id xref_refs [("target", "sec-x")]
                None None [] [] true 0 "sec-x" eq_refl ltac:(discriminate))
    as (_ & _ & _ & _ & H).
  refine (eq_trans (H eq_refl) _). vm_compute. reflexivity.
Defined.

(** ** Section headings *)

Section Headings.
Variable fill : string → nat → string → string.
Variable refs : gmap string nat.

(** What the [section] branch does once the title is known to be non-empty:
    [block] is what the test on the anchor appends after the heading. *)
Lemma section_eq attrs txt tl cs lines mid level title block :
  section_title attrs cs = Ok title →
  title ≠ "" →
  (let anchor := Py.strip (attr_get_str attrs "anchor") in
   if Py.nonempty anchor then
     match refs !! anchor with
     | None => False
     | Some n => block = if 0 <? n then [":PROPERTIES:" +:+ Py.nl;
                                         ":CUSTOM_ID: " +:+ anchor +:+ Py.nl;
                                         ":END:" +:+ Py.nl]
                         else []
     end
   else block = []) →
  _cvt_mid_back fill refs (Elt "section" attrs txt tl cs) lines mid level
  = section_children (λ c l, _cvt_mid_back fill refs c l mid (S level)) cs
      (lines ++ (Py.nl +:+ stars level +:+ " " +:+ title +:+ Py.nl)
             :: block ++ [Py.nl]).
Proof.
  intros Htitle Hne Hid. cbn [_cvt_mid_back String.eqb Ascii.eqb Bool.eqb].
  rewrite Htitle. cbn [mbind res_mbind res_bind].
  apply nonempty_true in Hne. rewrite Hne. cbv zeta in Hid.
  destruct (Py.nonempty (Py.strip _)).
  - destruct (refs !! _) as [n|]; [|done]. subst block.
    destruct (0 <? n); cbn [mbind res_mbind res_bind mret res_mret];
      by rewrite <- !(assoc_L (++)).
  - subst block. cbn [mbind res_mbind res_bind mret res_mret].
    by rewrite <- !(assoc_L (++)).
Qed.

Lemma section_children_out cs lines mid level out :
  section_children (λ c l, _cvt_mid_back fill refs c l mid level) cs lines
    = Ok out →
  ∃ rest, out = lines ++ rest.
Proof.
  apply section_children_grows, Forall_forall.
  intros c _ s out'. apply _cvt_mid_back_grows.
Qed.

(** What the section branch does.  Take a [section] element whose title,
    from the [title] attribute or else the [name] child, is non-empty, and
    let [anchor] be its [anchor] attribute with the surrounding whitespace
    stripped (the empty string when the attribute is absent).  When [anchor] is non-empty and a
    key of the reference table with a count above zero, the heading is
    followed at once by a property block whose custom identifier is [anchor],
    then by the blank line and the output of the children.  When [anchor] is
    empty (the attribute is absent, empty or only whitespace) or its count is
    zero, the heading is followed at once by the blank line and the output of
    the children: there is no property block. *)
Theorem section_custom_id_iff_referenced attrs txt tl cs lines mid level title :
  section_title attrs cs = Ok title →
  title ≠ "" →
  let anchor := Py.strip (attr_get_str attrs "anchor") in
  let heading := Py.nl +:+ stars level +:+ " " +:+ title +:+ Py.nl in
  let block := [":PROPERTIES:" +:+ Py.nl;
                ":CUSTOM_ID: " +:+ anchor +:+ Py.nl;
                ":END:" +:+ Py.nl] in
  let convert :=
    _cvt_mid_back fill refs (Elt "section" attrs txt tl cs) lines mid level in
  let then_children :=
    section_children (λ c l, _cvt_mid_back fill refs c l mid (S level)) cs in
  (∀ n, anchor ≠ "" → refs !! anchor = Some n → 0 < n →
     convert = then_children (lines ++ heading :: block ++ [Py.nl])
     ∧ ∀ out, convert = Ok out →
              ∃ rest, out = lines ++ heading :: block ++ Py.nl :: rest)
  ∧ (anchor = "" ∨ refs !! anchor = Some 0 →
     convert = then_children (lines ++ [heading; Py.nl])
     ∧ ∀ out, convert = Ok out → ∃ rest, out = lines ++ heading :: Py.nl :: rest).
Proof.
  intros Htitle Hne anchor heading block convert then_children. split.
  - intros n Ha Hn Hpos.
    assert (convert = then_children (lines ++ heading :: block ++ [Py.nl])) as Heq.
    { apply section_eq; [done..|]. cbv zeta. fold anchor.
      apply nonempty_true in Ha. rewrite Ha, Hn.
      by rewrite (proj2 (Nat.ltb_lt 0 n) Hpos). }
    split; [done|]. intros out Hout. rewrite Heq in Hout.
    apply section_children_out in Hout as [rest ->]. exists rest.
    by rewrite <- !(assoc_L (++)).
  - intros Ha.
    assert (convert = then_children (lines ++ heading :: [] ++ [Py.nl])) as Heq.
    { apply section_eq; [done..|]. cbv zeta. fold anchor.
      destruct Ha as [Ha|Ha].
      - apply nonempty_false in Ha. by rewrite Ha.
      - rewrite Ha. by destruct (Py.nonempty anchor). }
    split; [done|]. intros out Hout. rewrite Heq in Hout.
    apply section_children_out in Hout as [rest ->]. exists rest.
    by rewrite <- !(assoc_L (++)).
Qed.

(** C10.  The de-indent step raises on an absent text, so a [t] element
    whose text before the first child is absent fails with that error,
    whatever its children are; an example is a paragraph that starts with an
    [xref] child.  Hence whenever the conversion of a [t] element succeeds,
    the element has leading text. *)
Theorem paragraph_without_text_fails :
  _unindent None = Raise TypeError
  ∧ (∀ attrs tl cs lines mid level,
       _cvt_mid_back fill refs (Elt "t" attrs None tl cs) lines mid level
       = Raise TypeError)
  ∧ _cvt_mid_back fill refs
      (Elt "t" [] None None
         [Elt "xref" [("target", "sec-x")] None (Some " for details.") []])
      [] true 0
    = Raise TypeError
  ∧ (∀ attrs txt tl cs lines mid level out,
       _cvt_mid_back fill refs (Elt "t" attrs txt tl cs) lines mid level = Ok out →
       ∃ s, txt = Some s).
Proof.
  split_and!; [done..|].
  intros attrs [s|] tl cs lines mid level out; [eauto|discriminate].
Qed.

End Headings.

Lemma paragraph_without_text_fails_witness :
  _cvt_mid_back fill_id ∅ (Elt "t" [] (Some "Hello") None []) [] true 0
    = Ok ["Hello" +:+ Py.nl +:+ Py.nl]
  ∧ ∃ s, Some "Hello" = Some s.
Proof.
  split; [reflexivity|].
  exact (proj2 (proj2 (proj2 (paragraph_without_text_fails fill_id ∅)))
           [] (Some "Hello") None [] [] true 0 _ eq_refl).
Defined.

Lemma section_custom_id_iff_referenced_witness :
  section_title [("title", "Intro"); ("anchor", "sec-x")] [] = Ok "Intro"
  ∧ "Intro" ≠ ""
  ∧ _cvt_mid_back fill_id {["sec-x" := 1]}
      (Elt "section" [("title", "Intro"); ("anchor", "sec-x")] None None [])
      [] true 0
    = Ok [Py.nl +:+ "* Intro" +:+ Py.nl; ":PROPERTIES:" +:+ Py.nl;
          ":CUSTOM_ID: sec-x" +:+ Py.nl; ":END:" +:+ Py.nl; Py.nl]
  ∧ _cvt_mid_back fill_id {["sec-x" := 0]}
      (Elt "section" [("title", "Intro"); ("anchor", "sec-x")] None None [])
      [] true 0
    = Ok [Py.nl +:+ "* Intro" +:+ Py.nl; Py.nl].
Proof.
  split; [reflexivity|]. split; [discriminate|]. split.
  - refine (eq_trans
      (proj1 (proj1 (section_custom_id_iff_referenced fill_id {["sec-x" := 1]}
         [("title", "Intro"); ("anchor", "sec-x")] None None [] [] true 0
         "Intro" eq_refl ltac:(discriminate)) 1 ltac:(discriminate) eq_refl
         (le_n 1))) _).
    reflexivity.
  - refine (eq_trans
      (proj1 (proj2 (section_custom_id_iff_referenced fill_id {["sec-x" := 0]}
         [("title", "Intro"); ("anchor", "sec-x")] None None [] [] true 0
         "Intro" eq_refl ltac:(discriminate)) (or_intror eq_refl))) _).
    reflexivity.
Defined.

(** The other half goes wrong the same way: this section carries a
    non-empty anchor attribute, one space, which the collector counts once,
    and its heading gets no property block, because the anchor is stripped
    before it is tested. *)
Lemma blank_anchor_counted_without_custom_id :
  attr_get (attrib blank_anchor_section) "anchor" = Some " "
  ∧ gather_refs blank_anchor_doc ∅ !! " " = Some 1
  ∧ _cvt_mid_back fill_id (gather_refs blank_anchor_doc ∅)
      blank_anchor_section [] true 0
    = Ok [Py.nl +:+ "* Scope" +:+ Py.nl; Py.nl].
Proof. split_and!; reflexivity. Qed.

(** C1.  The heading looks the anchor up stripped, while the collector
    files it as it is written.  The first section of this document carries
    the anchor [a] followed by a space; no xref has that target, and the
    collector leaves its count at zero.  The one xref of the document
    targets [a], the anchor of the second section.  The heading of the first
    section is looked up under [a] all the same, finds the count of the
    second section, and gets a property block, whose custom identifier is
    not the anchor of the section: a section with count zero gets an
    identifier, and two headings of the document carry the same one. *)
Theorem zero_count_section_gets_custom_id :
  attr_get (attrib padded_twin_section) "anchor" = Some ("a" +:+ " ")
  ∧ gather_refs twin_anchor_doc ∅ !! ("a" +:+ " ") = Some 0
  ∧ gather_refs twin_anchor_doc ∅ !! "a" = Some 1
  ∧ _cvt_mid_back fill_id (gather_refs twin_anchor_doc ∅)
      padded_twin_section [] true 0
    = Ok [Py.nl +:+ "* First" +:+ Py.nl; ":PROPERTIES:" +:+ Py.nl;
          ":CUSTOM_ID: a" +:+ Py.nl; ":END:" +:+ Py.nl; Py.nl]
  ∧ res_bind (λ r, Ok (fst r))
      (convert_xml_to_markdown (set_impl := appending_set) fill_id
         twin_anchor_doc glb0)
    = Ok (Py.nl
          +:+ Py.nl +:+ "* First" +:+ Py.nl +:+ ":PROPERTIES:" +:+ Py.nl
          +:+ ":CUSTOM_ID: a" +:+ Py.nl +:+ ":END:" +:+ Py.nl +:+ Py.nl
          +:+ Py.nl +:+ "* Second" +:+ Py.nl +:+ ":PROPERTIES:" +:+ Py.nl
          +:+ ":CUSTOM_ID: a" +:+ Py.nl +:+ ":END:" +:+ Py.nl +:+ Py.nl
          +:+ "See [[#a]]" +:+ Py.nl +:+ Py.nl).
Proof. split_and!; reflexivity. Qed.

(** ** The reference collector *)

Lemma anchors_of_cons e elts :
  anchors_of (e :: elts)
  = let a := attr_get_str (attrib e) "anchor" in
    if Py.nonempty a then a :: anchors_of elts else anchors_of elts.
Proof.
  unfold anchors_of. cbn [map]. rewrite filter_cons.
  by destruct (attr_get_str (attrib e) "anchor").
Qed.

Lemma collect_lookup elts : ∀ refs k,
  foldl collect_anchor refs elts !! k
  = if decide (k ∈ anchors_of elts) then Some 0 else refs !! k.
Proof.
  induction elts as [|e elts IH]; intros refs k.
  - case_decide as Hk; [|done]. by apply elem_of_nil in Hk.
  - cbn [foldl]. rewrite IH, anchors_of_cons. unfold collect_anchor. cbv zeta.
    destruct (Py.nonempty _); [|done].
    rewrite lookup_insert.
    repeat case_decide; try done; set_solver.
Qed.

Lemma count_target_dom refs e k :
  is_Some (count_target refs e !! k) ↔ is_Some (refs !! k).
Proof.
  unfold count_target. repeat case_match; try done.
  rewrite lookup_insert. case_decide; [|done]. subst. split; eauto.
Qed.

Lemma count_lookup_dom elts : ∀ refs k,
  is_Some (foldl count_target refs elts !! k) ↔ is_Some (refs !! k).
Proof.
  induction elts as [|e elts IH]; intros refs k; simpl; [done|].
  by rewrite IH, count_target_dom.
Qed.

Lemma gather_refs_dom root refs k :
  is_Some (gather_refs root refs !! k)
  ↔ k ∈ anchors_of (findall_below "section" root) ∨ is_Some (refs !! k).
Proof.
  unfold gather_refs. rewrite count_lookup_dom, collect_lookup.
  case_decide; [|naive_solver]. split; eauto.
Qed.

(** When the table holds section anchors of the tree only, the collector
    forgets what it held: its first loop resets every one of them. *)
Lemma gather_refs_reset root refs :
  (∀ k, is_Some (refs !! k) → k ∈ anchors_of (findall_below "section" root)) →
  gather_refs root refs = gather_refs root ∅.
Proof.
  intros Hdom. unfold gather_refs. f_equal. apply map_eq. intros k.
  rewrite !collect_lookup. case_decide; [done|].
  rewrite lookup_empty. apply eq_None_not_Some. eauto.
Qed.

(** C8.  The collector, run a second time on the same tree right after the
    first run, leaves the table as the first run made it. *)
Theorem gather_section_refs_idempotent root :
  gather_section_refs root (gather_section_refs root glb0)
  = gather_section_refs root glb0
  ∧ gather_refs root (gather_refs root ∅) = gather_refs root ∅.
Proof.
  assert (gather_refs root (gather_refs root ∅) = gather_refs root ∅) as Heq.
  { apply gather_refs_reset. intros k Hk.
    apply gather_refs_dom in Hk as [Hk|Hk]; [done|].
    rewrite lookup_empty in Hk. by destruct Hk. }
  split; [|done]. unfold gather_section_refs. cbn. by rewrite Heq.
Qed.

(** After the collector has run, the [anchor] attribute of every section of
    the tree, as it is written in the tree, is a key of the table. *)
Lemma section_anchor_collected root refs e :
  e ∈ findall_below "section" root →
  attr_get_str (attrib e) "anchor" ≠ "" →
  is_Some (gather_refs root refs !! attr_get_str (attrib e) "anchor").
Proof.
  intros He Ha. apply gather_refs_dom. left. unfold anchors_of.
  apply list_elem_of_filter. split; [done|].
  apply list_elem_of_fmap. eauto.
Qed.

(** The lookup of the section branch fails when the stripped anchor is no
    key of the table. *)
Lemma section_lookup_fails fill refs attrs txt tl cs lines mid level title :
  section_title attrs cs = Ok title →
  title ≠ "" →
  Py.strip (attr_get_str attrs "anchor") ≠ "" →
  refs !! Py.strip (attr_get_str attrs "anchor") = None →
  _cvt_mid_back fill refs (Elt "section" attrs txt tl cs) lines mid level
  = Raise (KeyError (Py.strip (attr_get_str attrs "anchor"))).
Proof.
  intros Htitle Hne Ha Hrefs. cbn [_cvt_mid_back String.eqb Ascii.eqb Bool.eqb].
  rewrite Htitle. cbn [mbind res_mbind res_bind].
  apply nonempty_true in Hne, Ha. by rewrite Hne, Ha, Hrefs.
Qed.

(** C9: the collector files the anchor of this section as it is written,
    with its trailing space, and the heading looks the stripped anchor up,
    which is no key: the conversion of the document ends in the error. *)
Lemma padded_anchor_lookup_fails :
  gather_refs padded_anchor_doc ∅ !! "sec-x " = Some 0
  ∧ gather_refs padded_anchor_doc ∅ !! "sec-x" = None
  ∧ convert_xml_to_markdown (set_impl := appending_set) fill_id
      padded_anchor_doc glb0
    = Raise (KeyError "sec-x").
Proof. split_and!; reflexivity. Qed.

(** ** Tables *)

Lemma aligns_step_Some rows : ∀ a, ∃ a', foldl aligns_step (Some a) rows = Some a'.
Proof.
  induction rows as [|r rows IH]; intros a; simpl; [eauto|].
  destruct a; simpl; apply IH.
Qed.

(** With a row to read, the loop over [allrows] leaves [aligns] a list. *)
Lemma column_aligns_Ok r rows : ∃ aligns, column_aligns (r :: rows) = Ok aligns.
Proof.
  unfold column_aligns. cbn [foldl aligns_step].
  destruct (aligns_step_Some rows (map (λ x, attr_get (attrib x) "align") (children r)))
    as [a' ->].
  eauto.
Qed.

Lemma rows_loop maxw aligns rows : ∀ lines,
  foldl (λ lines row, lines ++ [row_text maxw aligns row]) lines rows
  = lines ++ map (row_text maxw aligns) rows.
Proof.
  induction rows as [|r rows IH]; intros lines; simpl.
  - by rewrite app_nil_r.
  - by rewrite IH, <- (assoc_L (++)).
Qed.

(** One non-empty group: its rows, the alignment row unless one was written,
    and the rule. *)
Lemma table_group_nonempty maxw aligns rule lines aligned rows :
  rows ≠ [] →
  table_group maxw aligns rule (lines, aligned) rows
  = (lines ++ map (row_text maxw aligns) rows
           ++ (if aligned then [] else [align_row_text maxw aligns])
           ++ [rule], true).
Proof.
  destruct rows as [|r rows]; [done|]. intros _.
  cbn [table_group]. rewrite rows_loop.
  destruct aligned; by rewrite <- ?(assoc_L (++)).
Qed.

(** The loop over the groups, once the alignment row is written. *)
Lemma table_groups_aligned maxw aligns rule groups : ∀ lines,
  foldl (table_group maxw aligns rule) (lines, true) groups
  = (lines ++ flat_map (λ rows, map (row_text maxw aligns) rows ++ [rule])
                       (filter (λ rows, rows ≠ []) groups), true).
Proof.
  induction groups as [|g groups IH]; intros lines; cbn [foldl].
  - by rewrite app_nil_r.
  - destruct g as [|r g].
    + cbn [table_group]. rewrite IH. by rewrite filter_cons_False by naive_solver.
    + rewrite table_group_nonempty by done. rewrite IH.
      rewrite filter_cons_True by done. cbn [flat_map].
      by rewrite <- !(assoc_L (++)).
Qed.

(** The loop over the groups from its start. *)
Lemma table_groups maxw aligns rule groups first others : ∀ lines,
  filter (λ rows : list Element, rows ≠ []) groups = first :: others →
  foldl (table_group maxw aligns rule) (lines, false) groups
  = (lines ++ map (row_text maxw aligns) first
           ++ [align_row_text maxw aligns; rule]
           ++ flat_map (λ rows, map (row_text maxw aligns) rows ++ [rule]) others,
     true).
Proof.
  induction groups as [|g groups IH]; intros lines Hf; [done|].
  cbn [foldl]. destruct g as [|r g].
  - rewrite filter_cons_False in Hf by naive_solver. cbn [table_group]. by apply IH.
  - rewrite filter_cons_True in Hf by done. injection Hf as <- <-.
    rewrite table_group_nonempty by done. rewrite table_groups_aligned.
    by rewrite <- !(assoc_L (++)).
Qed.

Lemma some_group_some_row (h b f first : list Element) others :
  filter (λ rows : list Element, rows ≠ []) [h; b; f] = first :: others →
  ∃ r rows, h ++ b ++ f = r :: rows.
Proof.
  destruct h as [|r h]; [|simpl; eauto].
  destruct b as [|r b]; [|simpl; eauto].
  destruct f as [|r f]; [|simpl; eauto].
  done.
Qed.

(** C5.  When at least one of the three row groups has a row, let [first] be
    the first such group and [others] the later ones.  After the caption
    lines the table is: a rule, the rows of [first], the alignment row, a
    rule, and then for each group of [others] its rows and a rule.  So the
    alignment row is written once, right after the rows of the first group
    that has rows and before the rule that closes it. *)
Theorem table_alignment_row_once table lines first others :
  let hrows := group_rows table "thead" in
  let brows := group_rows table "tbody" in
  let frows := group_rows table "tfoot" in
  let maxw := column_widths (hrows ++ brows ++ frows) in
  let rule := table_rule maxw in
  filter (λ rows : list Element, rows ≠ []) [hrows; brows; frows]
    = first :: others →
  ∃ aligns,
    column_aligns (hrows ++ brows ++ frows) = Ok aligns
    ∧ _cvt_table table lines
      = (caption ← table_caption table lines;
         mret (caption ++ [rule]
                 ++ map (row_text maxw aligns) first
                 ++ [align_row_text maxw aligns; rule]
                 ++ flat_map (λ rows, map (row_text maxw aligns) rows ++ [rule])
                             others)).
Proof.
  intros hrows brows frows maxw rule Hgroups.
  destruct (some_group_some_row _ _ _ _ _ Hgroups) as (r & rows & Hall).
  destruct (column_aligns_Ok r rows) as [aligns Haligns].
  rewrite <- Hall in Haligns. exists aligns. split; [done|].
  unfold _cvt_table. fold hrows brows frows. rewrite Haligns.
  destruct (table_caption table lines) as [caption|e]; [|done].
  cbn [mbind res_mbind res_bind mret res_mret]. f_equal.
  fold maxw. fold rule. rewrite (table_groups _ _ _ _ first others) by done.
  cbn [fst]. by rewrite <- !(assoc_L (++)).
Qed.

Lemma table_alignment_row_once_witness :
  filter (λ rows : list Element, rows ≠ [])
    [group_rows small_table "thead"; group_rows small_table "tbody";
     group_rows small_table "tfoot"]
  = [[Ex.tr [Ex.td "Name"; Ex.td "Size"]];
     [Ex.tr [Ex.td "alpha"; Ex.td "12"]; Ex.tr [Ex.td "beta"; Ex.td "7"]]]
  ∧ _cvt_table small_table []
    = Ok ["|-------+------|" +:+ Py.nl;
          "| Name  | Size |" +:+ Py.nl;
          "| <l>   | <l>  |" +:+ Py.nl;
          "|-------+------|" +:+ Py.nl;
          "| alpha | 12   |" +:+ Py.nl;
          "| beta  | 7    |" +:+ Py.nl;
          "|-------+------|" +:+ Py.nl].
Proof.
  split; [reflexivity|].
  destruct (table_alignment_row_once small_table [] _ _ eq_refl)
    as (aligns & Haligns & Heq).
  rewrite Heq. injection Haligns as <-. reflexivity.
Defined.

(** ** Tables whose rows have the same number of cells *)

Lemma max_widths_step_same_length maxw row :
  length maxw = length (children row) →
  max_widths_step maxw row = zip_with Nat.max (map cell_width (children row)) maxw.
Proof.
  unfold max_widths_step. destruct maxw as [|w maxw]; [|done].
  destruct (children row); [done|discriminate].
Qed.

Lemma max_widths_loop n rows : ∀ maxw,
  Forall (λ r, length (children r) = n) rows →
  length maxw = n →
  length (foldl max_widths_step maxw rows) = n
  ∧ ∀ j, j < n →
      foldl max_widths_step maxw rows !! j
      = Some (Nat.max (default 0 (maxw !! j)) (max_list_with (cell_width_at j) rows)).
Proof.
  induction rows as [|r rows IH]; intros maxw Hrows Hlen.
  - split; [done|]. intros j Hj. cbn.
    destruct (lookup_lt_is_Some_2 maxw j) as [w ->]; [lia|]. cbn. f_equal. lia.
  - apply Forall_cons in Hrows as [Hr Hrows]. cbn [foldl].
    rewrite max_widths_step_same_length by congruence.
    destruct (IH (zip_with Nat.max (map cell_width (children r)) maxw) Hrows)
      as [Hlen' Hlookup].
    { rewrite length_zip_with, length_map. lia. }
    split; [done|]. intros j Hj. rewrite (Hlookup j Hj), lookup_zip_with.
    rewrite list_lookup_fmap. cbn [max_list_with]. unfold cell_width_at.
    destruct (lookup_lt_is_Some_2 maxw j) as [w ->]; [lia|].
    destruct (lookup_lt_is_Some_2 (children r) j) as [c ->]; [lia|].
    cbn. f_equal. lia.
Qed.

(** What C4 says of the widths holds for a table whose rows all have [n]
    cells: there are [n] widths, and the width at each position is two more
    than the longest stripped cell text at that position. *)
Lemma column_widths_uniform n r rows :
  Forall (λ r, length (children r) = n) (r :: rows) →
  length (column_widths (r :: rows)) = n
  ∧ ∀ j, j < n →
      column_widths (r :: rows) !! j
      = Some (2 + max_list_with (cell_width_at j) (r :: rows)).
Proof.
  intros Hrows. pose proof Hrows as [Hr Hrows']%Forall_cons.
  destruct (max_widths_loop n rows (map cell_width (children r)) Hrows')
    as [Hlen Hlookup]; [by rewrite length_map|].
  assert (column_widths (r :: rows)
          = map (Nat.add 2)
              (foldl max_widths_step (map cell_width (children r)) rows)) as ->
    by done.
  split; [by rewrite length_map|].
  intros j Hj. rewrite list_lookup_fmap, (Hlookup j Hj).
  rewrite list_lookup_fmap. cbn [max_list_with]. unfold cell_width_at.
  destruct (lookup_lt_is_Some_2 (children r) j) as [c ->]; [lia|]. done.
Qed.

(** ** Lengths of the lines of a table *)

Lemma length_app_str a b :
  String.length (a +:+ b) = String.length a + String.length b.
Proof.
  induction a as [|c a IH]; [done|].
  change (S (String.length (a +:+ b)) = S (String.length a + String.length b)).
  by rewrite IH.
Qed.

Lemma length_repeat_char c n :
  String.length (Py.repeat_str (String c "") n) = n.
Proof.
  induction n as [|n IH]; [done|].
  cbn [Py.repeat_str]. rewrite length_app_str, IH. done.
Qed.

Lemma length_format_s align w s :
  String.length (Py.format_s align w s) = Nat.max w (String.length s).
Proof.
  unfold Py.format_s.
  assert ((w - String.length s) / 2 ≤ w - String.length s) as Hhalf
    by (apply Nat.Div0.div_le_upper_bound; lia).
  repeat case_match; rewrite !length_app_str, !length_repeat_char; lia.
Qed.

Lemma length_get_row_text w align etext :
  String.length (get_row_text w align etext)
  = S (Nat.max w (String.length etext + 2)).
Proof.
  unfold get_row_text. rewrite length_app_str, length_format_s.
  rewrite !length_app_str. cbn. f_equal. lia.
Qed.

Lemma length_cell_text e : String.length (cell_text e) = cell_width e.
Proof.
  unfold cell_text, cell_width. destruct (text e) as [[|c s]|]; done.
Qed.

(** The cells of a data row, when each text fits its column. *)
Lemma length_row_cells maxw : ∀ aligns cells rtext,
  Forall2 (λ w e, cell_width e + 2 ≤ w) maxw cells →
  length aligns = length maxw →
  String.length
    (foldl (λ rtext '(width, (align, elt)),
              rtext +:+ get_row_text width align (cell_text elt))
           rtext (zip maxw (zip aligns cells)))
  = String.length rtext + sum_list (S <$> maxw).
Proof.
  induction maxw as [|w maxw IH]; intros aligns cells rtext Hfit Hlen.
  - cbn. lia.
  - destruct aligns as [|a aligns]; [done|].
    apply Forall2_cons_inv_l in Hfit as (e & cells' & He & Hfit & ->).
    rewrite fmap_cons. cbn [zip zip_with foldl sum_list_with].
    rewrite IH by (done || (cbn in Hlen; lia)).
    rewrite length_app_str, length_get_row_text, length_cell_text.
    unfold id. lia.
Qed.

(** The cells of the alignment row, when each marker fits its column. *)
Lemma length_align_cells maxw : ∀ aligns rtext,
  Forall (λ w, 5 ≤ w) maxw →
  Forall (λ a, String.length a = 1) aligns →
  length aligns = length maxw →
  String.length
    (foldl (λ rtext '(width, align),
              rtext +:+ get_row_text width align ("<" +:+ align +:+ ">"))
           rtext (zip maxw aligns))
  = String.length rtext + sum_list (S <$> maxw).
Proof.
  induction maxw as [|w maxw IH]; intros aligns rtext Hw Ha Hlen.
  - cbn. lia.
  - destruct aligns as [|a aligns]; [done|].
    apply Forall_cons in Hw as [Hw Hws]. apply Forall_cons in Ha as [Ha Has].
    rewrite fmap_cons. cbn [zip zip_with foldl sum_list_with].
    rewrite IH by (done || (cbn in Hlen; lia)).
    rewrite length_app_str, length_get_row_text, !length_app_str, Ha.
    unfold id. cbn [String.length]. lia.
Qed.

Lemma length_rule_loop maxw : ∀ rule first,
  String.length
    (fst (foldl (λ (st : string * bool) (width : nat),
                   let '(rule, first) := st in
                   ((if first then rule else rule +:+ "+")
                      +:+ Py.repeat_str "-" width, false))
                (rule, first) maxw))
  + (if first then Nat.min 1 (length maxw) else 0)
  = String.length rule + sum_list (S <$> maxw).
Proof.
  induction maxw as [|w maxw IH]; intros rule first.
  - cbn. destruct first; lia.
  - rewrite fmap_cons. cbn [foldl sum_list_with length].
    specialize (IH ((if first then rule else rule +:+ "+")
                      +:+ Py.repeat_str "-" w) false).
    rewrite Nat.add_0_r in IH. rewrite IH.
    rewrite length_app_str, (length_repeat_char "-").
    unfold id. destruct first; rewrite ?length_app_str; cbn [String.length]; lia.
Qed.

Lemma length_table_rule maxw :
  maxw ≠ [] →
  String.length (table_rule maxw) = sum_list (S <$> maxw) + 2.
Proof.
  intros Hne. unfold table_rule. rewrite !length_app_str.
  pose proof (length_rule_loop maxw "|" true) as Hloop.
  destruct maxw as [|w maxw]; [done|].
  cbn [length String.length Nat.min] in Hloop |- *.
  change (String.length Py.nl) with 1. lia.
Qed.

Lemma length_row_text maxw aligns row :
  Forall2 (λ w e, cell_width e + 2 ≤ w) maxw (children row) →
  length aligns = length maxw →
  String.length (row_text maxw aligns row) = sum_list (S <$> maxw) + 2.
Proof.
  intros Hfit Hlen. unfold row_text.
  rewrite !length_app_str, length_row_cells by done.
  change (String.length Py.nl) with 1. cbn [String.length]. lia.
Qed.

Lemma length_align_row_text maxw aligns :
  Forall (λ w, 5 ≤ w) maxw →
  Forall (λ a, String.length a = 1) aligns →
  length aligns = length maxw →
  String.length (align_row_text maxw aligns) = sum_list (S <$> maxw) + 2.
Proof.
  intros Hw Ha Hlen. unfold align_row_text.
  rewrite !length_app_str, length_align_cells by done.
  change (String.length Py.nl) with 1. cbn [String.length]. lia.
Qed.

(** ** The alignments of a table whose rows have the same number of cells *)

Lemma aligns_loop_length n rows : ∀ a,
  Forall (λ r, length (children r) = n) rows →
  length a = n →
  ∃ a', foldl aligns_step (Some a) rows = Some a' ∧ length a' = n.
Proof.
  induction rows as [|r rows IH]; intros a Hrows Hlen; [by eauto|].
  apply Forall_cons in Hrows as [Hr Hrows]. cbn [foldl].
  destruct a as [|x a]; cbn [aligns_step]; apply IH; try done.
  - by rewrite length_map.
  - rewrite length_zip_with, length_map. cbn [length] in *. lia.
Qed.

Lemma column_aligns_uniform n r rows :
  Forall (λ r, length (children r) = n) (r :: rows) →
  ∃ aligns, column_aligns (r :: rows) = Ok aligns
            ∧ length aligns = n
            ∧ Forall (λ a, String.length a = 1) aligns.
Proof.
  intros [Hr Hrows]%Forall_cons. unfold column_aligns. cbn [foldl aligns_step].
  destruct (aligns_loop_length n rows
              (map (λ x, attr_get (attrib x) "align") (children r)) Hrows)
    as (a' & -> & Hlen); [by rewrite length_map|].
  eexists. split; [done|]. split; [by rewrite length_map|].
  apply Forall_fmap, Forall_forall. intros [[|c s]|] _; done.
Qed.

Lemma max_list_with_elem_of_le {A} (f : A → nat) x l :
  x ∈ l → f x ≤ max_list_with f l.
Proof. induction 1; cbn [max_list_with]; lia. Qed.

(** In a table whose rows all have [n] cells, every cell text fits the width
    of its column. *)
Lemma cells_fit_uniform n r rows row :
  Forall (λ r, length (children r) = n) (r :: rows) →
  row ∈ r :: rows →
  Forall2 (λ w e, cell_width e + 2 ≤ w) (column_widths (r :: rows)) (children row).
Proof.
  intros Hrows Hrow.
  destruct (column_widths_uniform n r rows Hrows) as [Hlen Hlookup].
  pose proof (proj1 (Forall_forall _ _) Hrows row Hrow) as Hn. cbn beta in Hn.
  apply Forall2_same_length_lookup_2; [congruence|].
  intros j w e Hw He.
  assert (j < n) as Hj by (rewrite <- Hn; by eapply lookup_lt_Some).
  rewrite (Hlookup j Hj) in Hw. injection Hw as <-.
  pose proof (max_list_with_elem_of_le (cell_width_at j) row _ Hrow) as Hle.
  unfold cell_width_at at 1 in Hle. rewrite He in Hle. cbn in Hle. lia.
Qed.

(** What C3 says holds for a table whose rows all have the same number of
    cells, one at least, and whose columns are all five characters wide or
    more (some cell text of three characters or more in each column): the
    rules, the rows and the alignment row have the same length. *)
Lemma table_lines_same_length n table lines out :
  let allrows := group_rows table "thead" ++ group_rows table "tbody"
                 ++ group_rows table "tfoot" in
  1 ≤ n →
  allrows ≠ [] →
  Forall (λ r, length (children r) = n) allrows →
  Forall (λ w, 5 ≤ w) (column_widths allrows) →
  _cvt_table table lines = Ok out →
  ∃ caption body,
    table_caption table lines = Ok caption
    ∧ out = caption ++ body
    ∧ Forall (λ l, String.length l
                   = String.length (table_rule (column_widths allrows))) body.
Proof.
  intros allrows Hn Hne Hrows Hwide Hout.
  destruct allrows as [|r rows] eqn:Hall; [done|].
  destruct (column_widths_uniform n r rows Hrows) as [Hlen _].
  destruct (column_aligns_uniform n r rows Hrows) as (aligns & Haligns & Hlena & Hone).
  set (maxw := column_widths (r :: rows)) in *.
  set (h := group_rows table "thead") in *.
  set (b := group_rows table "tbody") in *.
  set (f := group_rows table "tfoot") in *.
  assert (String.length (table_rule maxw) = sum_list (S <$> maxw) + 2) as Hrule.
  { apply length_table_rule. intros Heq. rewrite Heq in Hlen. cbn in Hlen. lia. }
  assert (∀ row, row ∈ r :: rows →
            String.length (row_text maxw aligns row) = String.length (table_rule maxw))
    as Hrow.
  { intros row Hrow. rewrite Hrule. apply length_row_text; [|congruence].
    by eapply cells_fit_uniform. }
  assert (String.length (align_row_text maxw aligns) = String.length (table_rule maxw))
    as Halign.
  { rewrite Hrule. apply length_align_row_text; [done..|congruence]. }
  destruct (filter (λ rows : list Element, rows ≠ []) [h; b; f])
    as [|first others] eqn:Hgroups.
  { exfalso. subst allrows.
    destruct h; [|by rewrite filter_cons_True in Hgroups].
    rewrite filter_cons_False in Hgroups by naive_solver.
    destruct b; [|by rewrite filter_cons_True in Hgroups].
    rewrite filter_cons_False in Hgroups by naive_solver.
    destruct f; [done|by rewrite filter_cons_True in Hgroups]. }
  assert (∀ g row, g ∈ first :: others → row ∈ g → row ∈ r :: rows) as Hin.
  { intros g row Hg Hrowg. rewrite <- Hgroups in Hg.
    apply list_elem_of_filter in Hg as [_ Hg]. rewrite <- Hall. unfold allrows.
    rewrite !elem_of_cons, elem_of_nil in Hg. rewrite !elem_of_app.
    naive_solver. }
  unfold _cvt_table in Hout. fold h b f in Hout.
  destruct (table_caption table lines) as [caption|] eqn:Hcaption; [|done].
  cbn [mbind res_mbind res_bind] in Hout. fold allrows in Hout.
  rewrite Hall in Hout. fold maxw in Hout.
  rewrite Haligns in Hout. cbn [mbind res_mbind res_bind] in Hout.
  rewrite (table_groups _ _ _ _ first others) in Hout by done.
  injection Hout as <-. eexists caption, _. split; [done|].
  split; [by rewrite <- (assoc_L (++))|].
  apply Forall_app. split; [by repeat constructor|].
  apply Forall_app. split.
  { apply Forall_fmap, Forall_forall. intros row Hrowf. cbn.
    apply Hrow. eapply Hin; [|done]. by left. }
  apply Forall_cons. split; [done|]. apply Forall_cons. split; [done|].
  apply Forall_forall. intros l Hl.
  apply list_elem_of_In, in_flat_map in Hl as (g & Hg & Hl).
  apply list_elem_of_In in Hg, Hl.
  apply elem_of_app in Hl as [Hl|Hl].
  - apply list_elem_of_fmap in Hl as (row & -> & Hrowg).
    apply Hrow. eapply Hin; [|done]. by right.
  - apply list_elem_of_singleton in Hl as ->. done.
Qed.

(** C3: in the table of the one cell [a] the rule and the row are six
    characters long and the alignment row is eight. *)
Lemma alignment_row_longer_than_rule :
  _cvt_table one_cell_table []
  = Ok ["|---|" +:+ Py.nl; "| a |" +:+ Py.nl; "| <l> |" +:+ Py.nl;
        "|---|" +:+ Py.nl]
  ∧ res_bind (λ out, Ok (map String.length out)) (_cvt_table one_cell_table [])
    = Ok [6; 6; 8; 6].
Proof. split; reflexivity. Qed.

(** C4: the second row has one cell, and after it the widths are those of
    one column: the second column, which the first row has, gets no width,
    and its cell is left out of the table. *)
Lemma short_row_drops_column_width :
  column_widths (group_rows ragged_table "tbody") = [3]
  ∧ _cvt_table ragged_table []
    = Ok ["|---|" +:+ Py.nl; "| a |" +:+ Py.nl; "| c |" +:+ Py.nl;
          "| <l> |" +:+ Py.nl; "|---|" +:+ Py.nl].
Proof. split; reflexivity. Qed.

(** ** Bibliographic entries *)

(** Whatever else the entry holds, an author without an organization child
    keeps [_cvt_front_ref] from returning. *)
Lemma front_author_without_organization front lines author out :
  find "author" (children front) = Some author →
  find "organization" (children author) = None →
  _cvt_front_ref front lines ≠ Ok out.
Proof.
  intros Hauthor Horg Hout. unfold _cvt_front_ref in Hout.
  rewrite Hauthor, Horg in Hout. res_inv.
Qed.

(** C6: an author without an organization child ends the conversion of the
    entry in an error. *)
Lemma author_without_organization_fails :
  _cvt_reference author_only_reference [] = Raise AttributeError.
Proof. reflexivity. Qed.

(** The other sub-elements may be missing: without a [front] child, or with
    a [front] that has neither title nor author, the entry is the heading
    and the property block, with the target line when there is a target. *)
Lemma reference_without_front_matter anchor attrs txt tl cs lines :
  attr_get attrs "anchor" = Some anchor →
  match find "front" cs with
  | Some front =>
      find "title" (children front) = None
      ∧ find "author" (children front) = None
  | None => True
  end →
  _cvt_reference (Elt "reference" attrs txt tl cs) lines
  = Ok (lines ++ ["** " +:+ anchor +:+ Py.nl; ":PROPERTIES:" +:+ Py.nl]
              ++ match attr_get attrs "target" with
                 | Some t => [":REF_TARGET: " +:+ Py.strip t +:+ Py.nl]
                 | None => []
                 end
              ++ [":END:" +:+ Py.nl]).
Proof.
  intros Hanchor Hfront. unfold _cvt_reference.
  cbn [tag attrib children Py.contains Py.startswith Ascii.eqb Bool.eqb
       orb andb String.eqb].
  rewrite Hanchor. unfold _cvt_front_ref.
  destruct (find "front" cs) as [front|].
  - destruct Hfront as [-> ->]. cbn.
    destruct (attr_get attrs "target"); by rewrite <- !(assoc_L (++)).
  - cbn. destruct (attr_get attrs "target"); by rewrite <- !(assoc_L (++)).
Qed.

(** ** Front matter *)

Section Keywords.
Context {set_impl : PySet}.
Variable fill : string → nat → string → string.

Lemma set_add_spec x l :
  NoDup l → NoDup (set_add x l) ∧ ∀ k, k ∈ set_add x l ↔ k = x ∨ k ∈ l.
Proof.
  intros Hl. destruct (decide (x ∈ l)) as [Hx|Hx].
  - rewrite set_add_elem by done. split; [done|]. set_solver.
  - pose proof (set_add_new x l Hx) as Hp. split.
    + rewrite Hp. by constructor.
    + intros k. rewrite Hp. set_solver.
Qed.

Lemma add_all_spec ks : ∀ kw,
  NoDup kw → NoDup (add_all kw ks) ∧ ∀ k, k ∈ add_all kw ks ↔ k ∈ kw ∨ k ∈ ks.
Proof.
  induction ks as [|x ks IH]; intros kw Hkw; cbn [add_all foldl].
  - split; [done|]. set_solver.
  - destruct (set_add_spec x kw Hkw) as [Hnd Hin].
    destruct (IH _ Hnd) as [Hnd' Hin']. split; [done|].
    intros k. unfold add_all in Hin'. rewrite Hin', Hin. set_solver.
Qed.

Lemma add_all_app kw ks1 ks2 :
  add_all kw (ks1 ++ ks2) = add_all (add_all kw ks1) ks2.
Proof. apply foldl_app. Qed.

Lemma front_author_keywords attrs cs st st' :
  front_author attrs cs st = Ok st' → keywords st'.2 = keywords st.2.
Proof.
  unfold front_author. destruct st as [lines glb]. intros Hst.
  res_inv; done.
Qed.

Lemma convert_xml_front_keywords e : ∀ st level st',
  convert_xml_front fill e st level = Ok st' →
  keywords st'.2 = add_all (keywords st.2) (keyword_texts e).
Proof.
  induction e as [tg attrs txt tl cs IH] using Element_ind'.
  intros [lines glb] level st' Hst.
  cbn [convert_xml_front keyword_texts] in *.
  repeat match type of Hst with
         | (if ?b then _ else _) = _ =>
             let Hb := fresh "Hb" in
             destruct b eqn:Hb;
             [apply String.eqb_eq in Hb; subst tg|]
         end.
  - res_inv. done.
  - by erewrite front_author_keywords.
  - res_inv. done.
  - res_inv. done.
  - res_inv. done.
  - unfold text_strip in Hst. cbn [text] in Hst. res_inv. done.
  - rewrite bool_decide_eq_false_2.
    2:{ rewrite !elem_of_cons, elem_of_nil.
        apply String.eqb_neq in Hb, Hb0, Hb1, Hb2, Hb3. naive_solver. }
    clear Hb Hb0 Hb1 Hb2 Hb3 Hb4.
    revert lines glb Hst. induction IH as [|c cs Hc _ IHcs];
      intros lines glb Hst; cbn [for_each flat_map] in *.
    + res_inv. done.
    + res_inv. rewrite add_all_app.
      match goal with H : convert_xml_front _ _ _ _ = Ok ?x |- _ =>
        apply Hc in H; rewrite <- H; destruct x end.
      by eapply IHcs.
Qed.

Lemma front_children_keywords cs : ∀ st st',
  for_each (λ c st, convert_xml_front fill c st 0) cs st = Ok st' →
  keywords st'.2 = add_all (keywords st.2) (flat_map keyword_texts cs).
Proof.
  induction cs as [|c cs IH]; intros st st' Hst; cbn [for_each flat_map] in *.
  - res_inv. done.
  - res_inv. rewrite add_all_app.
    match goal with H : convert_xml_front _ _ _ _ = Ok _ |- _ =>
      apply convert_xml_front_keywords in H; rewrite <- H end.
    by apply IH.
Qed.

(** C7, as amended.  When the conversion of the children of the [front]
    element succeeds, starting with an empty keyword set, and has come to at
    least one [keyword] element, the [front] branch appends one keywords
    directive after all the fragments of the front matter.  Its value is the
    parenthesized list, separated by spaces, of the quoted keywords in the
    reverse of the order in which a loop over the keyword set meets them.
    The set holds every collected keyword once; which order a loop over it
    takes is not fixed by the order of insertion. *)
Theorem keywords_directive_in_reverse_set_order front lines glb lines' glb' :
  for_each (λ c st, convert_xml_front fill c st 0) (children front) (lines, glb)
    = Ok (lines', glb') →
  keywords glb = [] →
  flat_map keyword_texts (children front) ≠ [] →
  top_level_front fill front (lines, glb)
    = Ok (lines' ++ ["#+RFC_KEYWORDS: ("
                       +:+ Py.join " " (rev (map quoted (keywords glb')))
                       +:+ ")" +:+ Py.nl],
          glb')
  ∧ NoDup (keywords glb')
  ∧ (∀ k, k ∈ keywords glb' ↔ k ∈ flat_map keyword_texts (children front)).
Proof.
  intros Hfront Hempty Hsome.
  pose proof (front_children_keywords _ _ _ Hfront) as Hkw. cbn [snd] in Hkw.
  rewrite Hempty in Hkw.
  destruct (add_all_spec (flat_map keyword_texts (children front)) [])
    as [Hnd Hin]; [constructor|].
  rewrite <- Hkw in Hnd, Hin.
  assert (∀ k, k ∈ keywords glb' ↔ k ∈ flat_map keyword_texts (children front))
    as Hin'.
  { intros k. rewrite Hin. set_solver. }
  split_and!; [|done..].
  unfold top_level_front. rewrite Hfront.
  cbn [mbind res_mbind res_bind]. unfold keywords_line.
  destruct (keywords glb') as [|k kw] eqn:Hglb'; [|done].
  destruct (flat_map keyword_texts (children front)) as [|k ks]; [done|].
  specialize (Hin' k). set_solver.
Qed.

End Keywords.

Lemma keywords_directive_in_reverse_set_order_witness :
  top_level_front (set_impl := appending_set) fill_id keywords_front ([], glb0)
  = Ok (["#+RFC_KEYWORDS: (" +:+ quoted "beta" +:+ " " +:+ quoted "alpha"
           +:+ ")" +:+ Py.nl],
        {| did_author := false; keywords := ["alpha"; "beta"]; sec_refs := ∅ |}).
Proof.
  refine (eq_trans
    (proj1 (keywords_directive_in_reverse_set_order (set_impl := appending_set) fill_id
       keywords_front [] glb0 []
       {| did_author := false; keywords := ["alpha"; "beta"]; sec_refs := ∅ |}
       eq_refl eq_refl ltac:(discriminate))) _).
  reflexivity.
Defined.

(** C7 as it was stated fails: with a set whose loop meets the keyword added
    last first, as Python's set does whenever the hash of the second keyword
    puts it in an earlier slot of the table than the first, the document with
    the keywords alpha and beta, in this order, gets the directive value
    with alpha before beta, which is the order of insertion and not its
    reverse. *)
Lemma keywords_not_in_reverse_insertion_order :
  let emitted := "#+RFC_KEYWORDS: (" +:+ quoted "alpha" +:+ " " +:+ quoted "beta"
                 +:+ ")" +:+ Py.nl in
  let reversed := "#+RFC_KEYWORDS: (" +:+ quoted "beta" +:+ " " +:+ quoted "alpha"
                  +:+ ")" +:+ Py.nl in
  keyword_texts keywords_front = ["alpha"; "beta"]
  ∧ top_level (set_impl := prepending_set) fill_id keywords_doc glb0
    = Ok ([Py.nl; emitted],
          {| did_author := false; keywords := ["beta"; "alpha"]; sec_refs := ∅ |})
  ∧ emitted ≠ reversed.
Proof. split_and!; [reflexivity..|discriminate]. Qed.

(** ** The fragments of a node do not depend on the output so far *)

Lemma res_map_bind {A B C} (f : B → C) (m : res A) (k : A → res B) :
  res_map f (m ≫= k) = m ≫= (λ a, res_map f (k a)).
Proof. by destruct m. Qed.

Lemma bind_res_map {A B C} (f : A → B) (m : res A) (k : B → res C) :
  res_map f m ≫= k = m ≫= (λ a, k (f a)).
Proof. by destruct m. Qed.

Lemma bind_ext {A B} (m : res A) (k1 k2 : A → res B) :
  (∀ a, k1 a = k2 a) → m ≫= k1 = m ≫= k2.
Proof. intros Hk. destruct m; [apply Hk|done]. Qed.

Lemma res_map_app_nil (m : res (list string)) : res_map (app []) m = m.
Proof. by destruct m. Qed.

Lemma res_map_app_app l1 l2 (m : res (list string)) :
  res_map (app l1) (res_map (app l2) m) = res_map (app (l1 ++ l2)) m.
Proof. destruct m; [|done]. cbn. by rewrite (assoc_L (++)). Qed.

Lemma for_each_framed {A} (body : A → list string → res (list string)) l :
  Forall (framed body) l →
  ∀ lines, for_each body l lines = res_map (app lines) (for_each body l []).
Proof.
  induction 1 as [|x l Hx _ IH]; intros lines; cbn [for_each].
  - cbn. by rewrite app_nil_r.
  - rewrite (Hx lines), bind_res_map, res_map_bind. apply bind_ext. intros r.
    rewrite (IH (lines ++ r)), (IH r). by rewrite res_map_app_app.
Qed.

Lemma add_elt_attr_framed e attr name lines :
  add_elt_attr e attr name lines = lines ++ add_elt_attr e attr name [].
Proof. unfold add_elt_attr. case_match; [done|by rewrite app_nil_r]. Qed.

Lemma attr_rfc_line_framed attrs lines :
  attr_rfc_line attrs lines = lines ++ attr_rfc_line attrs [].
Proof. unfold attr_rfc_line. case_match; [done|by rewrite app_nil_r]. Qed.

(** Brings a run that starts from [lines] to the run from the empty output. *)
Ltac frame_tac :=
  repeat first
    [ progress cbn [mbind res_mbind res_bind mret res_mret res_map app]
    | rewrite app_nil_r
    | rewrite <- !(assoc_L (++))
    | match goal with
      | |- context [match ?x with _ => _ end] => destruct x eqn:?
      | |- context [mbind _ ?m] =>
          lazymatch m with
          | Ok _ => fail
          | Raise _ => fail
          | context [mbind _ _] => fail
          | _ => destruct m eqn:?
          end
      end ];
  try done.

Lemma _cvt_front_ref_framed front : framed _cvt_front_ref front.
Proof. intros lines. unfold _cvt_front_ref. frame_tac. Qed.

Lemma _cvt_reference_framed c : framed _cvt_reference c.
Proof.
  intros lines. unfold _cvt_reference.
  destruct (if Py.contains _ _ then _ else _); [frame_tac|].
  destruct (String.eqb _ _); [|frame_tac].
  destruct (attr_get _ "anchor"); [|done].
  destruct (find "front" _) as [front|].
  - rewrite (_cvt_front_ref_framed front (match _ with Some _ => _ | None => _ end)).
    rewrite (_cvt_front_ref_framed front (match _ with Some _ => _ | None => _ end)).
    destruct (_cvt_front_ref front []); frame_tac.
  - frame_tac.
Qed.

Lemma references_children_framed cs : ∀ lines,
  references_children cs lines = res_map (app lines) (references_children cs []).
Proof.
  induction cs as [|c cs IH]; intros lines; cbn [references_children].
  - cbn. by rewrite app_nil_r.
  - destruct (String.eqb _ _); [apply IH|].
    rewrite (_cvt_reference_framed c lines), bind_res_map, res_map_bind.
    apply bind_ext. intros r.
    rewrite (IH (lines ++ r)), (IH r). by rewrite res_map_app_app.
Qed.

Lemma table_group_framed maxw aligns rule lines aligned rows :
  table_group maxw aligns rule (lines, aligned) rows
  = (lines ++ (table_group maxw aligns rule ([], aligned) rows).1,
     (table_group maxw aligns rule ([], aligned) rows).2).
Proof.
  destruct rows as [|r rows]; [by rewrite app_nil_r|].
  cbn [table_group fst snd]. rewrite !rows_loop.
  destruct aligned; by rewrite <- ?(assoc_L (++)).
Qed.

Lemma table_groups_framed maxw aligns rule groups : ∀ lines aligned,
  (foldl (table_group maxw aligns rule) (lines, aligned) groups).1
  = lines ++ (foldl (table_group maxw aligns rule) ([], aligned) groups).1.
Proof.
  induction groups as [|g groups IH]; intros lines aligned; cbn [foldl fst].
  - by rewrite app_nil_r.
  - rewrite (table_group_framed _ _ _ lines).
    destruct (table_group maxw aligns rule ([], aligned) g) as [l a] eqn:Hg.
    cbn [fst snd]. rewrite (IH (lines ++ l)), (IH l). by rewrite (assoc_L (++)).
Qed.

Lemma table_caption_framed table : framed table_caption table.
Proof.
  intros lines. unfold table_caption.
  destruct (find "name" _) as [name|]; cbn [mbind res_mbind res_bind mret res_mret].
  - destruct (text_strip name); [|done].
    cbn [mbind res_mbind res_bind mret res_mret res_map app].
    rewrite (add_elt_attr_framed _ _ _ (lines ++ _)).
    rewrite (add_elt_attr_framed _ _ _ [_]). by rewrite <- !(assoc_L (++)).
  - cbn [res_map]. by rewrite (add_elt_attr_framed _ _ _ lines).
Qed.

Lemma _cvt_table_framed table : framed _cvt_table table.
Proof.
  intros lines. unfold _cvt_table.
  rewrite (table_caption_framed table lines), bind_res_map, res_map_bind.
  apply bind_ext. intros caption.
  destruct (column_aligns _); [|done].
  cbn [mbind res_mbind res_bind mret res_mret res_map]. f_equal.
  rewrite (table_groups_framed _ _ _ _ ((lines ++ _) ++ _)).
  rewrite (table_groups_framed _ _ _ _ (caption ++ _)).
  by rewrite <- !(assoc_L (++)).
Qed.

Section Framed.
Variable fill : string → nat → string → string.
Variable rec : Element → list string → res (list string).

Lemma section_children_framed cs :
  Forall (framed rec) cs →
  ∀ lines, section_children rec cs lines
           = res_map (app lines) (section_children rec cs []).
Proof.
  induction 1 as [|c cs Hc _ IH]; intros lines; cbn [section_children].
  - cbn. by rewrite app_nil_r.
  - destruct (String.eqb _ _); [apply IH|].
    rewrite (Hc lines), bind_res_map, res_map_bind. apply bind_ext. intros r.
    rewrite (IH (lines ++ r)), (IH r). by rewrite res_map_app_app.
Qed.

Lemma list_items_framed cs : ∀ lines,
  list_items fill rec cs lines = res_map (app lines) (list_items fill rec cs []).
Proof.
  induction cs as [|c cs IH]; intros lines; cbn [list_items].
  - cbn. by rewrite app_nil_r.
  - destruct (String.eqb _ _); [|apply IH].
    rewrite !res_map_bind. apply bind_ext. intros t.
    rewrite !res_map_bind. apply bind_ext. intros itext.
    rewrite (IH (lines ++ _)), (IH ([] ++ _)). by rewrite res_map_app_app.
Qed.

Lemma dl_pairs_framed cs : ∀ lines,
  dl_pairs fill rec cs lines = res_map (app lines) (dl_pairs fill rec cs []).
Proof.
  cut (∀ n cs, length cs ≤ n → ∀ lines,
         dl_pairs fill rec cs lines = res_map (app lines) (dl_pairs fill rec cs [])).
  { intros Hn. by apply (Hn (length cs)). }
  induction n as [|n IH]; intros [|dt [|dl cs']] Hlen lines;
    cbn [dl_pairs length] in *; try lia.
  - cbn. by rewrite app_nil_r.
  - cbn. by rewrite app_nil_r.
  - rewrite res_map_bind. apply bind_ext. intros term. cbn. by rewrite app_nil_r.
  - rewrite res_map_bind. apply bind_ext. intros term.
    rewrite !res_map_bind. apply bind_ext. intros t.
    rewrite !res_map_bind. apply bind_ext. intros itext.
    rewrite (IH cs' ltac:(lia) (lines ++ _)), (IH cs' ltac:(lia) ([] ++ _)).
    by rewrite res_map_app_app.
Qed.

End Framed.

(** A loop that is framed from every output is framed from a longer one. *)
Lemma framed_app (f : list string → res (list string)) :
  (∀ lines, f lines = res_map (app lines) (f [])) →
  ∀ l1 l2, f (l1 ++ l2) = res_map (app l1) (f l2).
Proof.
  intros Hf l1 l2. by rewrite (Hf (l1 ++ l2)), (Hf l2), res_map_app_app.
Qed.

(** Closes a goal [f (lines ++ l) = res_map (app lines) (f l)] for a framed
    loop [f], after the outputs on both sides are brought to that form. *)
Ltac framed_loop H :=
  rewrite <- ?(assoc_L (++)); cbn [app];
  first [ apply (framed_app _ H) | apply H ].

(** The dispatcher run from the output [lines] does what it does from the
    empty output, with [lines] in front. *)
Lemma _cvt_mid_back_framed fill refs e : ∀ mid level,
  framed (λ e lines, _cvt_mid_back fill refs e lines mid level) e.
Proof.
  induction e as [tg attrs txt tl cs IH] using Element_ind'.
  intros mid level lines. cbn [_cvt_mid_back].
  assert (∀ mid level, Forall (framed (λ c l, _cvt_mid_back fill refs c l mid level)) cs)
    as IH'.
  { intros mid' level'. eapply Forall_impl; [exact IH|]. intros c Hc. apply Hc. }
  repeat match goal with
         | |- (if ?b then _ else _) = _ => destruct b eqn:?
         end.
  - rewrite !res_map_bind. apply bind_ext. intros title.
    destruct (Py.nonempty title); cbn [mbind res_mbind res_bind mret res_mret].
    + destruct (Py.nonempty (Py.strip _)).
      * destruct (refs !! _) as [n|]; [|done].
        destruct (0 <? n); cbn [mbind res_mbind res_bind mret res_mret];
          framed_loop (section_children_framed _ _ (IH' mid (S level))).
      * cbn [mbind res_mbind res_bind mret res_mret].
        framed_loop (section_children_framed _ _ (IH' mid (S level))).
    + framed_loop (section_children_framed _ _ (IH' mid (S level))).
  - rewrite !res_map_bind. apply bind_ext. intros _.
    destruct (find "name" cs) as [title|];
      cbn [mbind res_mbind res_bind mret res_mret].
    + destruct (text_strip title); [|done].
      cbn [mbind res_mbind res_bind mret res_mret].
      framed_loop (references_children_framed cs).
    + apply references_children_framed.
  - rewrite !res_map_bind. apply bind_ext. intros ptext.
    rewrite !res_map_bind. apply bind_ext. intros ptext'. done.
  - destruct (attr_get attrs "target") as [target|]; [|done].
    rewrite !res_map_bind. apply bind_ext. intros _. unfold each_child.
    framed_loop (for_each_framed _ _ (IH' mid level)).
  - apply _cvt_table_framed.
  - rewrite !res_map_bind.
    rewrite (attr_rfc_line_framed _ (lines ++ _)), (attr_rfc_line_framed _ ([] ++ _)).
    rewrite <- !(assoc_L (++)). cbn [app].
    rewrite (framed_app _ (dl_pairs_framed fill _ cs) lines).
    rewrite !bind_res_map. apply bind_ext. intros r. cbn.
    by rewrite <- !(assoc_L (++)).
  - rewrite !res_map_bind.
    rewrite (attr_rfc_line_framed _ (lines ++ _)), (attr_rfc_line_framed _ ([] ++ _)).
    rewrite <- !(assoc_L (++)). cbn [app].
    rewrite (framed_app _ (list_items_framed fill _ cs) lines).
    rewrite !bind_res_map. apply bind_ext. intros r. cbn.
    by rewrite <- !(assoc_L (++)).
  - rewrite !res_map_bind. apply bind_ext. intros name.
    destruct (find "artwork" cs) as [a|]; [|done].
    cbn [mbind res_mbind res_bind mret res_mret res_map]. f_equal.
    destruct (Py.nonempty name).
    + rewrite (add_elt_attr_framed _ _ _ (lines ++ _)).
      rewrite (add_elt_attr_framed _ _ _ ([] ++ _)).
      cbn [app]. by rewrite <- !(assoc_L (++)).
    + rewrite (add_elt_attr_framed _ _ _ lines).
      by rewrite <- !(assoc_L (++)).
  - unfold each_child. apply (for_each_framed _ _ (IH' _ _)).
Qed.

(** X1.  The dispatcher never reads the output it is handed: converting an
    element after the fragments [lines] gives [lines] followed by what
    converting it from the empty output gives, and fails with the same
    exception when that fails.  So the fragments of a node are the same
    wherever the node stands in the document, and what was written before is
    never changed. *)
Theorem dispatcher_output_frame fill refs e lines mid level :
  _cvt_mid_back fill refs e lines mid level
  = res_map (app lines) (_cvt_mid_back fill refs e [] mid level).
Proof. apply (_cvt_mid_back_framed fill refs e mid level lines). Qed.

(** ** The errors of the dispatcher *)

Lemma bind_Raise {A B} (m : res A) (f : A → res B) err :
  (m ≫= f) = Raise err ↔ m = Raise err ∨ ∃ a, m = Ok a ∧ f a = Raise err.
Proof.
  destruct m as [a|e]; unfold mbind, res_mbind, res_bind; split.
  - intros H. right. by exists a.
  - intros [?|(a' & [= <-] & ?)]; done.
  - intros [= ->]. by left.
  - intros [[= ->]|(a' & ? & ?)]; done.
Qed.

(** Takes a failed run apart into the step that failed. *)
Ltac err_inv :=
  repeat match goal with
  | H : (_ ≫= _) = Raise _ |- _ =>
      apply bind_Raise in H as [H|(? & ? & H)]
  | H : mret _ = Raise _ |- _ => discriminate H
  | H : Ok _ = Raise _ |- _ => discriminate H
  | H : Raise _ = Raise _ |- _ => injection H as H; subst
  | H : context [match ?x with _ => _ end] |- _ =>
      match type of H with _ = Raise _ => destruct x eqn:? end
  end.

Lemma subtree_self e : e ∈ subtree e.
Proof. destruct e. cbn. by left. Qed.

Lemma subtree_child tg attrs txt tl cs c s :
  c ∈ cs → s ∈ subtree c → s ∈ subtree (Elt tg attrs txt tl cs).
Proof.
  intros Hc Hs. cbn [subtree]. right.
  apply list_elem_of_In, in_flat_map. exists c.
  split; by apply list_elem_of_In.
Qed.

Lemma subtree_trans e : ∀ g s, g ∈ subtree e → s ∈ subtree g → s ∈ subtree e.
Proof.
  induction e as [tg attrs txt tl cs IH] using Element_ind'.
  intros g s Hg Hs. cbn [subtree] in Hg.
  apply elem_of_cons in Hg as [->|Hg]; [done|].
  apply list_elem_of_In, in_flat_map in Hg as (c & Hc & Hg).
  apply list_elem_of_In in Hc, Hg.
  eapply subtree_child; [done|].
  eapply (proj1 (Forall_forall _ _) IH); done.
Qed.

Lemma subtree_grandchild tg attrs txt tl cs c g :
  c ∈ cs → g ∈ children c → g ∈ subtree (Elt tg attrs txt tl cs).
Proof.
  intros Hc Hg. eapply subtree_child; [done|].
  destruct c as [? ? ? ? gs]. eapply subtree_child; [exact Hg|apply subtree_self].
Qed.

(** Induction with the property at hand for everything below the element. *)
Lemma Element_ind_below (P : Element → Prop) :
  (∀ e, (∀ s, s ∈ flat_map subtree (children e) → P s) → P e) → ∀ e, P e.
Proof.
  intros step.
  cut (∀ e s, s ∈ subtree e → P s).
  { intros Hall e. apply (Hall e), subtree_self. }
  induction e as [tg attrs txt tl cs IH] using Element_ind'.
  assert (∀ s, s ∈ flat_map subtree cs → P s) as Hbelow.
  { intros s Hs. apply list_elem_of_In, in_flat_map in Hs as (c & Hc & Hs).
    apply list_elem_of_In in Hc, Hs.
    eapply (proj1 (Forall_forall _ _) IH); done. }
  intros s Hs. cbn [subtree] in Hs.
  apply elem_of_cons in Hs as [->|Hs]; [|by apply Hbelow].
  by apply step.
Qed.

Lemma child_below c cs : c ∈ cs → c ∈ flat_map subtree cs.
Proof.
  intros Hc. apply list_elem_of_In, in_flat_map. exists c.
  split; apply list_elem_of_In; [done|apply subtree_self].
Qed.

Lemma grandchild_below c cs g : c ∈ cs → g ∈ children c → g ∈ flat_map subtree cs.
Proof.
  intros Hc Hg. apply list_elem_of_In, in_flat_map. exists c.
  split; apply list_elem_of_In; [done|].
  destruct c as [? ? ? ? gs]. eapply subtree_child; [exact Hg|apply subtree_self].
Qed.

Lemma known_error_below refs e g err :
  g ∈ subtree e → known_error refs g err → known_error refs e err.
Proof.
  intros Hg [?|[?|[?|[?|(s & Hs & ?)]]]]; unfold known_error; eauto 6.
  do 4 right. exists s. split; [by eapply subtree_trans|done].
Qed.

Section Errors.
Variable Q : exn → Prop.
Hypothesis Q_attribute : Q AttributeError.
Hypothesis Q_type : Q TypeError.
Hypothesis Q_assertion : ∀ msg, Q (AssertionError msg).

Lemma text_strip_error e err : text_strip e = Raise err → Q err.
Proof. unfold text_strip. intros H. err_inv. done. Qed.

Lemma _unindent_error t err : _unindent t = Raise err → Q err.
Proof. unfold _unindent. intros H. err_inv. done. Qed.

Lemma _cvt_front_ref_error front lines err :
  _cvt_front_ref front lines = Raise err → Q err.
Proof.
  unfold _cvt_front_ref. intros H. err_inv; eauto using text_strip_error.
Qed.

Lemma _cvt_reference_error c lines err :
  _cvt_reference c lines = Raise err → Q err.
Proof.
  unfold _cvt_reference. intros H.
  destruct (if Py.contains _ _ then _ else _); err_inv;
    eauto using _cvt_front_ref_error.
Qed.

Lemma references_children_error cs : ∀ lines err,
  references_children cs lines = Raise err → Q err.
Proof.
  induction cs as [|c cs IH]; cbn [references_children]; intros lines err H;
    err_inv; eauto using _cvt_reference_error.
Qed.

Lemma _cvt_table_error table lines err :
  _cvt_table table lines = Raise err → Q err.
Proof.
  unfold _cvt_table, table_caption, column_aligns. intros H.
  err_inv; eauto using text_strip_error.
Qed.

Lemma for_each_error {A S} (body : A → S → res S) l :
  Forall (λ x, ∀ s err, body x s = Raise err → Q err) l →
  ∀ s err, for_each body l s = Raise err → Q err.
Proof.
  induction 1 as [|x l Hx _ IH]; intros s err H; cbn [for_each] in H;
    err_inv; eauto.
Qed.

Variable fill : string → nat → string → string.
Variable rec : Element → list string → res (list string).

Lemma section_children_error cs :
  Forall (λ c, ∀ s err, rec c s = Raise err → Q err) cs →
  ∀ s err, section_children rec cs s = Raise err → Q err.
Proof.
  induction 1 as [|c cs Hc _ IH]; intros s err H; cbn [section_children] in H;
    err_inv; eauto.
Qed.

Lemma add_to_last_Ok t l : ∀ s, ∃ out, add_to_last (s :: l) t = Ok out ∧ out ≠ [].
Proof.
  induction l as [|s' l IH]; intros s; [by eexists|].
  change (add_to_last (s :: s' :: l) t)
    with (l' ← add_to_last (s' :: l) t; mret (s :: l')).
  destruct (IH s') as (out & -> & _). by eexists.
Qed.

Lemma add_to_last_error tlines t err :
  add_to_last tlines t = Raise err → tlines = [].
Proof.
  destruct tlines as [|s l]; [done|].
  destruct (add_to_last_Ok t l s) as (out & -> & _). done.
Qed.

(** The text loop never indexes an empty list: it starts from a list with
    the text in it, and the recursive calls only append. *)
Lemma text_children_error cs :
  Forall (λ c, ∀ s err, rec c s = Raise err → Q err) cs →
  Forall (λ c, ∀ s out, rec c s = Ok out → s `prefix_of` out) cs →
  ∀ tlines err, tlines ≠ [] → text_children rec cs tlines = Raise err → Q err.
Proof.
  induction 1 as [|c cs Hc _ IH]; intros Hgrows tlines err Hne H;
    cbn [text_children] in H; [done|].
  apply Forall_cons in Hgrows as [Hgrow Hgrows].
  apply bind_Raise in H as [H|(tl1 & H1 & H)]; [eauto|].
  assert (tl1 ≠ []) as Hne1.
  { apply Hgrow in H1 as [k ->]. by destruct tlines. }
  apply bind_Raise in H as [H|(tl2 & H2 & H)].
  - destruct (truthy (tail c)); [|done].
    apply bind_Raise in H as [H|(t & _ & H)]; [by eapply _unindent_error|].
    by apply add_to_last_error in H.
  - apply (IH Hgrows tl2 err); [|done].
    destruct (truthy (tail c)); [|by injection H2 as <-].
    apply bind_Ok in H2 as (t & _ & H2).
    destruct tl1 as [|s1 l1]; [done|].
    destruct (add_to_last_Ok t l1 s1) as (out & Hout & Hne2). congruence.
Qed.

Lemma _cvt_mid_back_text_elt_error cs text indent err :
  Forall (λ c, ∀ s err, rec c s = Raise err → Q err) cs →
  Forall (λ c, ∀ s out, rec c s = Ok out → s `prefix_of` out) cs →
  _cvt_mid_back_text_elt fill rec cs text indent = Raise err → Q err.
Proof.
  intros Herr Hgrows H. unfold _cvt_mid_back_text_elt in H.
  apply bind_Raise in H as [H|(? & ? & H)]; [|done].
  by apply (text_children_error cs Herr Hgrows [text]).
Qed.

Lemma list_items_error cs :
  Forall (λ c, Forall (λ c, ∀ s err, rec c s = Raise err → Q err) (children c)) cs →
  Forall (λ c, Forall (λ c, ∀ s out, rec c s = Ok out → s `prefix_of` out)
                      (children c)) cs →
  ∀ lines err, list_items fill rec cs lines = Raise err → Q err.
Proof.
  induction 1 as [|c cs Hc _ IH]; intros Hgrows lines err H;
    cbn [list_items] in H; [done|].
  apply Forall_cons in Hgrows as [Hgrow Hgrows].
  destruct (String.eqb _ _); [|by eapply IH].
  apply bind_Raise in H as [H|(t & _ & H)]; [by eapply _unindent_error|].
  apply bind_Raise in H as [H|(itext & _ & H)].
  - by eapply _cvt_mid_back_text_elt_error.
  - by eapply IH.
Qed.

Lemma dl_pairs_error cs :
  Forall (λ c, Forall (λ c, ∀ s err, rec c s = Raise err → Q err) (children c)) cs →
  Forall (λ c, Forall (λ c, ∀ s out, rec c s = Ok out → s `prefix_of` out)
                      (children c)) cs →
  ∀ lines err, dl_pairs fill rec cs lines = Raise err → Q err.
Proof.
  cut (∀ n cs, length cs ≤ n →
    Forall (λ c, Forall (λ c, ∀ s err, rec c s = Raise err → Q err) (children c)) cs →
    Forall (λ c, Forall (λ c, ∀ s out, rec c s = Ok out → s `prefix_of` out)
                        (children c)) cs →
    ∀ lines err, dl_pairs fill rec cs lines = Raise err → Q err).
  { intros Hn. by apply (Hn (length cs)). }
  clear cs. induction n as [|n IH]; intros [|dt [|dl cs']] Hlen Herr Hgrows lines err H;
    cbn [dl_pairs length] in *; try done; try lia.
  - apply bind_Raise in H as [H|(? & _ & H)]; [by eapply text_strip_error|done].
  - apply Forall_cons in Herr as [_ [Hdl Herr]%Forall_cons].
    apply Forall_cons in Hgrows as [_ [Hgdl Hgrows]%Forall_cons].
    apply bind_Raise in H as [H|(term & _ & H)]; [by eapply text_strip_error|].
    apply bind_Raise in H as [H|(t & _ & H)]; [by eapply _unindent_error|].
    apply bind_Raise in H as [H|(itext & _ & H)].
    + by eapply _cvt_mid_back_text_elt_error.
    + eapply (IH cs'); [lia|done..].
Qed.

End Errors.


(** Whatever the element and the table, a run of the dispatcher that fails
    ends in one of the known errors. *)
Lemma _cvt_mid_back_known_error fill refs e : ∀ lines mid level err,
  _cvt_mid_back fill refs e lines mid level = Raise err → known_error refs e err.
Proof.
  induction e as [e IH] using Element_ind_below.
  destruct e as [tg attrs txt tl cs]. intros lines mid level err H.
  cbn [children] in IH.
  set (e := Elt tg attrs txt tl cs) in *.
  assert (known_error refs e AttributeError) as QA by (by left).
  assert (known_error refs e TypeError) as QT by (right; by left).
  assert (∀ msg, known_error refs e (AssertionError msg)) as QS
    by (intros msg; do 2 right; left; by eexists).
  assert (∀ g, g ∈ flat_map subtree cs → ∀ mid level s err,
            _cvt_mid_back fill refs g s mid level = Raise err
            → known_error refs e err) as Hbelow.
  { intros g Hg mid' level' s err' Hraise.
    eapply (known_error_below refs e g); [by right|]. by eapply IH. }
  assert (∀ mid level,
            Forall (λ c, ∀ s err, _cvt_mid_back fill refs c s mid level = Raise err
                                  → known_error refs e err) cs) as Herr.
  { intros mid' level'. apply Forall_forall. intros c Hc s err'.
    by apply Hbelow, child_below. }
  assert (∀ mid level,
            Forall (λ c, Forall (λ g, ∀ s err,
                      _cvt_mid_back fill refs g s mid level = Raise err
                      → known_error refs e err) (children c)) cs) as Herr2.
  { intros mid' level'. apply Forall_forall. intros c Hc.
    apply Forall_forall. intros g Hg s err'.
    by eapply Hbelow, grandchild_below. }
  assert (∀ mid level (gs : list Element),
            Forall (λ c, ∀ s out, _cvt_mid_back fill refs c s mid level = Ok out
                                  → s `prefix_of` out) gs) as Hgrows.
  { intros mid' level' gs. apply Forall_forall. intros c _ s out.
    apply _cvt_mid_back_grows. }
  assert (∀ mid level,
            Forall (λ c, Forall (λ g, ∀ s out,
                      _cvt_mid_back fill refs g s mid level = Ok out
                      → s `prefix_of` out) (children c)) cs) as Hgrows2.
  { intros mid' level'. apply Forall_forall. intros c _. apply Hgrows. }
  unfold e in H. cbn [_cvt_mid_back] in H.
  repeat match type of H with
         | (if ?b then _ else _) = _ => destruct b eqn:?
         end.
  - apply bind_Raise in H as [H|(title & Htitle & H)].
    { unfold section_title in H. err_inv. by eapply text_strip_error. }
    apply bind_Raise in H as [H|(lines' & _ & H)].
    + destruct (Py.nonempty title); [|done].
      destruct (Py.nonempty (Py.strip _)) eqn:Hne; [|done].
      destruct (refs !! _) eqn:Hrefs; [by destruct (0 <? _)|].
      injection H as <-. do 4 right. exists e.
      split; [apply subtree_self|]. split; [by apply String.eqb_eq|done].
    + exact (section_children_error _ _ cs (Herr mid (S level)) _ _ H).
  - apply bind_Raise in H as [H|(? & _ & H)].
    { unfold assert_that in H. destruct (negb mid); [done|].
      injection H as <-. apply QS. }
    apply bind_Raise in H as [H|(? & _ & H)].
    + err_inv. by eapply text_strip_error.
    + by eapply references_children_error.
  - apply bind_Raise in H as [H|(ptext & _ & H)]; [by eapply _unindent_error|].
    apply bind_Raise in H as [H|(? & _ & H)]; [|done].
    eapply (_cvt_mid_back_text_elt_error (known_error refs e)); [..|exact H];
      first [done | apply Herr | apply Hgrows].
  - destruct (attr_get attrs "target") as [target|].
    + apply bind_Raise in H as [H|(? & _ & H)].
      * unfold assert_that in H. destruct (Py.nonempty target); [done|].
        injection H as <-. apply QS.
      * exact (for_each_error _ _ cs (Herr mid level) _ _ H).
    + injection H as <-. do 3 right. by left.
  - by eapply _cvt_table_error.
  - apply bind_Raise in H as [H|(? & _ & H)]; [|done].
    eapply (dl_pairs_error (known_error refs e)); [..|exact H];
      first [done | apply Herr2 | apply Hgrows2].
  - apply bind_Raise in H as [H|(? & _ & H)]; [|done].
    eapply (list_items_error (known_error refs e)); [..|exact H];
      first [done | apply Herr2 | apply Hgrows2].
  - apply bind_Raise in H as [H|(name & _ & H)].
    + err_inv. by eapply text_strip_error.
    + destruct (find "artwork" cs); [done|]. by injection H as <-.
  - exact (for_each_error _ _ cs (Herr mid (S level)) _ _ H).
Qed.

(** X2.  Whatever the element, the table and the output so far, a run of the
    dispatcher ends in an output or in one of five errors: AttributeError
    (the text of an element that has none, or a figure without artwork),
    TypeError (a paragraph or list item without text, a table without rows),
    a failed assertion, the KeyError of an xref without target, or the
    KeyError of a section at or below the element whose stripped, non-empty
    anchor is no key of the table.  It never ends in IndexError: the
    last-fragment update of the text loop always finds a fragment. *)
Theorem dispatcher_ends_in_known_error fill refs e lines mid level :
  (∃ out, _cvt_mid_back fill refs e lines mid level = Ok out)
  ∨ (∃ err, _cvt_mid_back fill refs e lines mid level = Raise err
            ∧ known_error refs e err
            ∧ err ≠ IndexError).
Proof.
  destruct (_cvt_mid_back fill refs e lines mid level) as [out|err] eqn:Hrun.
  - left. by exists out.
  - right. exists err. split; [done|].
    apply _cvt_mid_back_known_error in Hrun. split; [done|].
    destruct Hrun as [->|[->|[[msg ->]|[->|(s & _ & _ & _ & -> & _)]]]]; done.
Qed.

(** ** The state only grows *)

Lemma state_grows_refl st : state_grows st st.
Proof. by repeat split. Qed.

Lemma state_grows_trans st1 st2 st3 :
  state_grows st1 st2 → state_grows st2 st3 → state_grows st1 st3.
Proof.
  intros (H1 & H2 & H3 & H4) (H1' & H2' & H3' & H4'). repeat split.
  - by etrans.
  - congruence.
  - auto.
  - auto.
Qed.

Lemma for_each_state_grows {A} (body : A → list string * Globals → res (list string * Globals)) l :
  Forall (λ x, ∀ st st', body x st = Ok st' → state_grows st st') l →
  ∀ st st', for_each body l st = Ok st' → state_grows st st'.
Proof.
  induction 1 as [|x l Hx _ IH]; intros st st' H; cbn [for_each] in H; res_inv.
  - apply state_grows_refl.
  - eapply state_grows_trans; eauto.
Qed.

Section StateGrows.
Context {set_impl : PySet}.
Variable fill : string → nat → string → string.

Lemma set_add_keeps x l k : k ∈ l → k ∈ set_add x l.
Proof.
  intros Hk. destruct (decide (x ∈ l)) as [Hx|Hx].
  - by rewrite set_add_elem.
  - rewrite (set_add_new x l Hx). by right.
Qed.

Lemma front_author_state_grows attrs cs st st' :
  front_author attrs cs st = Ok st' → state_grows st st'.
Proof.
  unfold front_author. destruct st as [lines glb]. intros H.
  res_inv; repeat split; cbn; try done; grows.
Qed.

Lemma convert_xml_front_state_grows e : ∀ st level st',
  convert_xml_front fill e st level = Ok st' → state_grows st st'.
Proof.
  induction e as [tg attrs txt tl cs IH] using Element_ind'.
  intros [lines glb] level st' H. cbn [convert_xml_front] in H.
  repeat match type of H with
         | (if ?b then _ else _) = _ => destruct b eqn:?
         end.
  - res_inv. repeat split; cbn; try done. grows.
  - by eapply front_author_state_grows.
  - res_inv. repeat split; cbn; try done.
    match goal with H : for_each _ _ _ = Ok _ |- _ =>
      apply for_each_grows in H end.
    + grows.
    + apply Forall_forall. intros c _ s out. apply _cvt_mid_back_grows.
  - res_inv. repeat split; cbn; try done. grows.
  - res_inv. repeat split; cbn; try done. grows.
  - res_inv. repeat split; cbn; try done. apply set_add_keeps.
  - eapply for_each_state_grows; [|exact H].
    eapply Forall_impl; [exact IH|]. intros c Hc st st''. apply Hc.
Qed.

Lemma convert_xml_middle_state_grows e st st' :
  convert_xml_middle fill e st = Ok st' → state_grows st st'.
Proof.
  unfold convert_xml_middle. intros H. res_inv. repeat split; cbn; try done.
  by eapply _cvt_mid_back_grows.
Qed.

Lemma convert_xml_back_state_grows e st st' :
  convert_xml_back fill e st = Ok st' → state_grows st st'.
Proof.
  unfold convert_xml_back. intros H. res_inv. repeat split; cbn; try done.
  by eapply _cvt_mid_back_grows.
Qed.

Lemma top_level_front_state_grows e st st' :
  top_level_front fill e st = Ok st' → state_grows st st'.
Proof.
  unfold top_level_front. intros H.
  apply bind_Ok in H as ([lines glb] & Hfront & H).
  apply for_each_state_grows in Hfront.
  2:{ apply Forall_forall. intros c _ s s'. apply convert_xml_front_state_grows. }
  eapply state_grows_trans; [exact Hfront|].
  destruct (map quoted (keywords glb)); res_inv; repeat split; cbn; try done.
  grows.
Qed.

Lemma top_level_child_state_grows e st st' :
  top_level_child fill e st = Ok st' → state_grows st st'.
Proof.
  unfold top_level_child. intros H.
  repeat match type of H with
         | (if ?b then _ else _) = _ => destruct b eqn:?
         end.
  - by eapply top_level_front_state_grows.
  - eapply for_each_state_grows; [|exact H].
    apply Forall_forall. intros c _ s s'. apply convert_xml_middle_state_grows.
  - eapply for_each_state_grows; [|exact H].
    apply Forall_forall. intros c _ s s'. apply convert_xml_back_state_grows.
  - res_inv. apply state_grows_refl.
Qed.

End StateGrows.

(** X4.  A successful conversion of the document leaves the reference table
    as the collector made it, never clears the author flag and never takes a
    keyword out of the set: the converter only reads [sec_refs], and the
    other two fields only grow. *)
Theorem top_level_keeps_reference_table {set_impl : PySet} fill root glb lines glb' :
  top_level fill root glb = Ok (lines, glb') →
  sec_refs glb' = sec_refs glb
  ∧ (did_author glb = true → did_author glb' = true)
  ∧ (∀ k, k ∈ keywords glb → k ∈ keywords glb').
Proof.
  unfold top_level. intros Hrun.
  destruct (String.eqb (tag root) "rfc").
  - apply bind_Ok in Hrun as (lines0 & _ & Hrun).
    apply for_each_state_grows in Hrun as (_ & Hrefs & Hauthor & Hkeys); [done|].
    apply Forall_forall. intros c _ st st'. apply top_level_child_state_grows.
  - apply mret_Ok in Hrun as [= <- <-]. done.
Qed.

Lemma top_level_keeps_reference_table_witness :
  let glb := {| did_author := true; keywords := ["gamma"]; sec_refs := xref_refs |} in
  let glb' := {| did_author := true; keywords := ["gamma"; "alpha"; "beta"];
                 sec_refs := xref_refs |} in
  sec_refs glb' = sec_refs glb
  ∧ (did_author glb = true → did_author glb' = true)
  ∧ (∀ k, k ∈ keywords glb → k ∈ keywords glb').
Proof.
  intros glb glb'.
  eapply (top_level_keeps_reference_table (set_impl := appending_set) fill_id
            keywords_doc glb _ glb').
  reflexivity.
Defined.

(** ** The errors of the whole conversion *)

Lemma for_each_error_inv {A S} (I : S → Prop) (Q : exn → Prop)
    (body : A → S → res S) l :
  Forall (λ x, ∀ s, I s → (∀ s', body x s = Ok s' → I s')
                          ∧ (∀ err, body x s = Raise err → Q err)) l →
  ∀ s err, I s → for_each body l s = Raise err → Q err.
Proof.
  induction 1 as [|x l Hx _ IH]; intros s err Hs H; cbn [for_each] in H; [done|].
  destruct (Hx s Hs) as [Hok Herr].
  apply bind_Raise in H as [H|(s' & Hs' & H)]; eauto.
Qed.

Lemma text_strip_input_error e err :
  text_strip e = Raise err → input_error err.
Proof. unfold text_strip. intros H. err_inv. by left. Qed.

Lemma rfc_attr_error kv lines err :
  rfc_attr kv lines = Raise err → input_error err.
Proof.
  unfold rfc_attr. destruct kv as [k v]. intros H. err_inv.
  do 2 right. left. by eexists.
Qed.

Lemma _cvt_rfc_attr_error e lines err :
  _cvt_rfc_attr e lines = Raise err → input_error err.
Proof.
  unfold _cvt_rfc_attr. intros H.
  apply bind_Raise in H as [H|(? & _ & H)]; [|done].
  eapply (for_each_error input_error); [|exact H].
  apply Forall_forall. intros kv _ s err'. apply rfc_attr_error.
Qed.

Lemma below_root_error fill root refs g lines mid level err :
  anchors_stripped root = true →
  g ∈ flat_map subtree (children root) →
  _cvt_mid_back fill (gather_refs root refs) g lines mid level = Raise err →
  input_error err.
Proof.
  intros Hclean Hg H. apply _cvt_mid_back_known_error in H.
  destruct H as [?|[?|[?|[?|(s & Hs & Htag & Hne & _ & Hnone)]]]];
    unfold input_error; eauto 6.
  exfalso.
  assert (s ∈ findall_below "section" root) as Hsec.
  { apply list_elem_of_filter. split; [done|].
    apply list_elem_of_In, in_flat_map in Hg as (c & Hc & Hg).
    apply list_elem_of_In, in_flat_map. exists c. split; [done|].
    apply list_elem_of_In. apply list_elem_of_In in Hg.
    by eapply subtree_trans. }
  unfold anchors_stripped in Hclean.
  rewrite forallb_forall in Hclean.
  specialize (Hclean s (proj1 (list_elem_of_In _ _) Hsec)).
  apply String.eqb_eq in Hclean. rewrite Hclean in *.
  destruct (section_anchor_collected root refs s Hsec) as [n Hn]; [|congruence].
  intros Heq. by rewrite Heq in Hne.
Qed.

Section PipelineErrors.
Context {set_impl : PySet}.
Variable fill : string → nat → string → string.
Variable root : Element.
Variable refs : gmap string nat.
Hypothesis Hclean : anchors_stripped root = true.

Ltac loop_inv Hrefs H :=
  match type of H with
  | for_each ?body ?l ?s = Raise ?err =>
      refine (for_each_error_inv (λ st, sec_refs st.2 = gather_refs root refs)
                input_error body l _ s err Hrefs H)
  end.

Lemma front_author_error attrs cs st err :
  front_author attrs cs st = Raise err → input_error err.
Proof.
  unfold front_author. destruct st as [lines glb]. intros H.
  assert (input_error AttributeError) by (by left).
  assert (input_error TypeError) by (right; by left).
  err_inv; eauto using text_strip_input_error.
Qed.

Lemma convert_xml_front_error e : ∀ st level err,
  e ∈ flat_map subtree (children root) →
  sec_refs st.2 = gather_refs root refs →
  convert_xml_front fill e st level = Raise err → input_error err.
Proof.
  induction e as [tg attrs txt tl cs IH] using Element_ind'.
  intros [lines glb] level err He Hrefs H. cbn [snd] in Hrefs.
  assert (input_error AttributeError) by (by left).
  assert (∀ c, c ∈ cs → c ∈ flat_map subtree (children root)) as Hcs.
  { intros c Hc. apply list_elem_of_In, in_flat_map in He as (r & Hr & He).
    apply list_elem_of_In, in_flat_map. exists r. split; [done|].
    apply list_elem_of_In. apply list_elem_of_In in He.
    eapply subtree_trans; [exact He|].
    eapply subtree_child; [exact Hc|apply subtree_self]. }
  cbn [convert_xml_front] in H.
  repeat match type of H with
         | (if ?b then _ else _) = _ => destruct b eqn:?
         end.
  - err_inv. by eapply text_strip_input_error.
  - by eapply front_author_error.
  - apply bind_Raise in H as [H|(? & _ & H)]; [|done].
    eapply (for_each_error input_error); [|exact H].
    apply Forall_forall. intros c Hc s err'. rewrite Hrefs.
    by apply below_root_error, Hcs.
  - err_inv. by eapply text_strip_input_error.
  - err_inv. by eapply text_strip_input_error.
  - err_inv. by eapply text_strip_input_error.
  - loop_inv Hrefs H.
    apply Forall_forall. intros c Hc st Hst. split.
    + intros st' Hok. apply convert_xml_front_state_grows in Hok.
      destruct Hok as (_ & -> & _). done.
    + intros err' Herr.
      eapply (proj1 (Forall_forall _ _) IH c Hc); [by apply Hcs|exact Hst|exact Herr].
Qed.

Lemma top_level_child_error c st err :
  c ∈ children root →
  sec_refs st.2 = gather_refs root refs →
  top_level_child fill c st = Raise err → input_error err.
Proof.
  intros Hc Hrefs H.
  assert (∀ g, g ∈ children c → g ∈ flat_map subtree (children root)) as Hg.
  { intros g Hg. by eapply grandchild_below. }
  unfold top_level_child in H.
  repeat match type of H with
         | (if ?b then _ else _) = _ => destruct b eqn:?
         end.
  - unfold top_level_front in H.
    apply bind_Raise in H as [H|([lines glb] & _ & H)].
    2:{ by destruct (map quoted (keywords glb)). }
    loop_inv Hrefs H.
    apply Forall_forall. intros g Hin s Hs. split.
    + intros s' Hok. apply convert_xml_front_state_grows in Hok.
      destruct Hok as (_ & -> & _). done.
    + intros err'. by apply convert_xml_front_error; [apply Hg|].
  - loop_inv Hrefs H.
    apply Forall_forall. intros g Hin s Hs. split.
    + intros s' Hok. apply convert_xml_middle_state_grows in Hok.
      destruct Hok as (_ & -> & _). done.
    + intros err' Herr. unfold convert_xml_middle in Herr.
      apply bind_Raise in Herr as [Herr|(? & _ & Herr)]; [|done].
      rewrite Hs in Herr. by eapply below_root_error, Herr; [|apply Hg].
  - loop_inv Hrefs H.
    apply Forall_forall. intros g Hin s Hs. split.
    + intros s' Hok. apply convert_xml_back_state_grows in Hok.
      destruct Hok as (_ & -> & _). done.
    + intros err' Herr. unfold convert_xml_back in Herr.
      apply bind_Raise in Herr as [Herr|(? & _ & Herr)]; [|done].
      rewrite Hs in Herr. by eapply below_root_error, Herr; [|apply Hg].
  - done.
Qed.

Lemma top_level_error glb err :
  sec_refs glb = gather_refs root refs →
  top_level fill root glb = Raise err → input_error err.
Proof.
  intros Hrefs H. unfold top_level in H.
  destruct (String.eqb (tag root) "rfc"); [|done].
  apply bind_Raise in H as [H|(lines & _ & H)];
    [by eapply _cvt_rfc_attr_error|].
  loop_inv Hrefs H.
  apply Forall_forall. intros c Hc s Hs. split.
  - intros s' Hok. apply top_level_child_state_grows in Hok.
    destruct Hok as (_ & -> & _). done.
  - intros err'. by apply top_level_child_error.
Qed.

End PipelineErrors.

Lemma convert_xml_to_markdown_error {set_impl : PySet} fill root glb err :
  anchors_stripped root = true →
  convert_xml_to_markdown fill root glb = Raise err → input_error err.
Proof.
  intros Hclean Herr. unfold convert_xml_to_markdown in Herr.
  apply bind_Raise in Herr as [Herr|(? & _ & Herr)]; [|done].
  by eapply (top_level_error fill root (sec_refs glb)), Herr.
Qed.

(** X3.  When stripping leaves the anchor of every section of the document
    as it is written, a conversion that fails fails for the input alone: a
    text or an attribute that is missing, or a failed assertion.  It never
    fails on the lookup of a section anchor in the reference table, and
    never with IndexError: the collector has filed every anchor the
    converter looks up. *)
Theorem stripped_anchors_leave_input_errors {set_impl : PySet} fill root glb err :
  anchors_stripped root = true →
  convert_xml_to_markdown fill root glb = Raise err →
  input_error err.
Proof. apply convert_xml_to_markdown_error. Qed.

Lemma stripped_anchors_leave_input_errors_witness :
  anchors_stripped textless_paragraph_doc = true
  ∧ convert_xml_to_markdown (set_impl := appending_set) fill_id
      textless_paragraph_doc glb0 = Raise TypeError
  ∧ input_error TypeError.
Proof.
  split_and!; [reflexivity..|].
  apply (stripped_anchors_leave_input_errors (set_impl := appending_set) fill_id
           textless_paragraph_doc glb0 TypeError); reflexivity.
Defined.

(** ** What the collector counts *)

Lemma target_count_cons k e elts :
  target_count k (e :: elts)
  = (if decide (attr_get_str (attrib e) "target" = k ∧ k ≠ "") then 1 else 0)
    + target_count k elts.
Proof.
  unfold target_count. rewrite filter_cons. by case_decide.
Qed.

Lemma count_target_lookup refs e k :
  count_target refs e !! k
  = (λ n, n + target_count k [e]) <$> refs !! k.
Proof.
  unfold count_target. cbv zeta. rewrite target_count_cons.
  unfold target_count. cbn [filter length list_filter].
  destruct (Py.nonempty _) eqn:Hne.
  - apply nonempty_true in Hne.
    destruct (refs !! attr_get_str (attrib e) "target") as [n|] eqn:Hn.
    + rewrite lookup_insert. case_decide as Hk.
      * subst k. rewrite Hn. cbn. rewrite decide_True by done. done.
      * rewrite decide_False by naive_solver.
        destruct (refs !! k); cbn; [f_equal; lia|done].
    + case_decide as Hk.
      * destruct Hk as [<- _]. by rewrite Hn.
      * destruct (refs !! k); cbn; [f_equal; lia|done].
  - apply nonempty_false in Hne. rewrite decide_False by naive_solver.
    destruct (refs !! k); cbn; [f_equal; lia|done].
Qed.

Lemma count_targets_lookup elts : ∀ refs k,
  foldl count_target refs elts !! k
  = (λ n, n + target_count k elts) <$> refs !! k.
Proof.
  induction elts as [|e elts IH]; intros refs k; cbn [foldl].
  - destruct (refs !! k); cbn; [f_equal; unfold target_count; cbn; lia|done].
  - rewrite IH, count_target_lookup, (target_count_cons k e elts).
    rewrite (target_count_cons k e []).
    change (target_count k []) with 0.
    destruct (refs !! k); cbn [fmap option_fmap option_map]; [f_equal|done].
    lia.
Qed.

Lemma gather_refs_lookup root refs k :
  gather_refs root refs !! k
  = if decide (k ∈ anchors_of (findall_below "section" root))
    then Some (target_count k (findall_below "xref" root))
    else (λ n, n + target_count k (findall_below "xref" root)) <$> refs !! k.
Proof.
  unfold gather_refs. rewrite count_targets_lookup, collect_lookup.
  by case_decide.
Qed.

(** X5.  What the collector leaves in the table, from any table it starts
    with: a key that is the non-empty anchor of some section of the tree
    holds the number of xref elements of the tree with that target; any
    other key is there only if it was there before, and holds what it held
    plus the number of xref elements with that target.  So the counts of the
    section anchors do not depend on the table the collector starts from,
    while a key left from an earlier document is counted up again. *)
Theorem collector_counts_references root refs k :
  gather_refs root refs !! k
  = if decide (k ∈ anchors_of (findall_below "section" root))
    then Some (target_count k (findall_below "xref" root))
    else (λ n, n + target_count k (findall_below "xref" root)) <$> refs !! k.
Proof. apply gather_refs_lookup. Qed.

(** ** Tables without rows *)

Lemma _cvt_table_no_rows table lines :
  table_rows table = [] →
  _cvt_table table lines = (_ ← table_caption table lines; Raise TypeError).
Proof.
  unfold table_rows, _cvt_table. intros ->. done.
Qed.

(** ** The alignment row *)

(** The cells of the alignment row, whatever the widths: a marker takes
    five characters at least. *)
Lemma length_align_cells_any maxw : ∀ aligns rtext,
  Forall (λ a, String.length a = 1) aligns →
  length aligns = length maxw →
  String.length
    (foldl (λ rtext '(width, align),
              rtext +:+ get_row_text width align ("<" +:+ align +:+ ">"))
           rtext (zip maxw aligns))
  = String.length rtext + sum_list ((λ w, S (Nat.max w 5)) <$> maxw).
Proof.
  induction maxw as [|w maxw IH]; intros aligns rtext Ha Hlen.
  - cbn. lia.
  - destruct aligns as [|a aligns]; [done|].
    apply Forall_cons in Ha as [Ha Has].
    rewrite fmap_cons. cbn [zip zip_with foldl sum_list_with].
    rewrite IH by (done || (cbn in Hlen; lia)).
    rewrite length_app_str, length_get_row_text, !length_app_str, Ha.
    unfold id. cbn [String.length]. lia.
Qed.

Lemma length_align_row_text_any maxw aligns :
  Forall (λ a, String.length a = 1) aligns →
  length aligns = length maxw →
  String.length (align_row_text maxw aligns)
  = sum_list ((λ w, S (Nat.max w 5)) <$> maxw) + 2.
Proof.
  intros Ha Hlen. unfold align_row_text.
  rewrite !length_app_str, length_align_cells_any by done.
  change (String.length Py.nl) with 1. cbn [String.length]. lia.
Qed.

Lemma sum_widths_le maxw :
  sum_list (S <$> maxw) ≤ sum_list ((λ w, S (Nat.max w 5)) <$> maxw).
Proof.
  induction maxw as [|w maxw IH]; [done|].
  rewrite !fmap_cons. cbn [sum_list_with]. unfold id in *. lia.
Qed.

Lemma sum_widths_eq maxw :
  sum_list ((λ w, S (Nat.max w 5)) <$> maxw) = sum_list (S <$> maxw)
  ↔ Forall (λ w, 5 ≤ w) maxw.
Proof.
  induction maxw as [|w maxw IH]; [by split|].
  rewrite !fmap_cons, Forall_cons. cbn [sum_list_with].
  pose proof (sum_widths_le maxw). rewrite <- IH. unfold id in *. lia.
Qed.

(** The body of a table whose rows all have [n] cells. *)
Lemma uniform_table_body n table lines out :
  1 ≤ n →
  table_rows table ≠ [] →
  Forall (λ r, length (children r) = n) (table_rows table) →
  _cvt_table table lines = Ok out →
  ∃ caption aligns before after,
    table_caption table lines = Ok caption
    ∧ length aligns = n
    ∧ Forall (λ a, String.length a = 1) aligns
    ∧ out = caption ++ before
                    ++ [align_row_text (column_widths (table_rows table)) aligns]
                    ++ after
    ∧ Forall (λ l, String.length l
                   = String.length (table_rule (column_widths (table_rows table))))
             (before ++ after).
Proof.
  unfold table_rows. intros Hn Hne Hrows Hout.
  set (h := group_rows table "thead") in *.
  set (b := group_rows table "tbody") in *.
  set (f := group_rows table "tfoot") in *.
  destruct (h ++ b ++ f) as [|r rows] eqn:Hall; [done|].
  destruct (column_widths_uniform n r rows Hrows) as [Hlen _].
  destruct (column_aligns_uniform n r rows Hrows) as (aligns & Haligns & Hlena & Hone).
  set (maxw := column_widths (r :: rows)) in *.
  assert (∀ row, row ∈ r :: rows →
            String.length (row_text maxw aligns row) = String.length (table_rule maxw))
    as Hrow.
  { intros row Hrow. rewrite length_table_rule.
    2:{ intros Heq. rewrite Heq in Hlen. cbn in Hlen. lia. }
    apply length_row_text; [|congruence]. by eapply cells_fit_uniform. }
  destruct (filter (λ rows : list Element, rows ≠ []) [h; b; f])
    as [|first others] eqn:Hgroups.
  { exfalso.
    destruct h; [|by rewrite filter_cons_True in Hgroups].
    rewrite filter_cons_False in Hgroups by naive_solver.
    destruct b; [|by rewrite filter_cons_True in Hgroups].
    rewrite filter_cons_False in Hgroups by naive_solver.
    destruct f; [done|by rewrite filter_cons_True in Hgroups]. }
  assert (∀ g row, g ∈ first :: others → row ∈ g → row ∈ r :: rows) as Hin.
  { intros g row Hg Hrowg. rewrite <- Hgroups in Hg.
    apply list_elem_of_filter in Hg as [_ Hg]. rewrite <- Hall.
    rewrite !elem_of_cons, elem_of_nil in Hg. rewrite !elem_of_app.
    naive_solver. }
  unfold _cvt_table in Hout. fold h b f in Hout.
  destruct (table_caption table lines) as [caption|] eqn:Hcaption; [|done].
  cbn [mbind res_mbind res_bind] in Hout.
  rewrite Hall in Hout. fold maxw in Hout.
  rewrite Haligns in Hout. cbn [mbind res_mbind res_bind] in Hout.
  rewrite (table_groups _ _ _ _ first others) in Hout by done.
  injection Hout as <-.
  exists caption, aligns, (table_rule maxw :: map (row_text maxw aligns) first),
    (table_rule maxw
       :: flat_map (λ rows, map (row_text maxw aligns) rows ++ [table_rule maxw])
                   others).
  split_and!; [done..| |].
  { rewrite <- !(assoc_L (++)). done. }
  apply Forall_app. split.
  { apply Forall_cons. split; [done|].
    apply Forall_fmap, Forall_forall. intros row Hrowf. cbn.
    apply Hrow. eapply Hin; [|done]. by left. }
  apply Forall_cons. split; [done|].
  apply Forall_forall. intros l Hl.
  apply list_elem_of_In, in_flat_map in Hl as (g & Hg & Hl).
  apply list_elem_of_In in Hg, Hl.
  apply elem_of_app in Hl as [Hl|Hl].
  - apply list_elem_of_fmap in Hl as (row & -> & Hrowg).
    apply Hrow. eapply Hin; [|done]. by right.
  - apply list_elem_of_singleton in Hl as ->. done.
Qed.

Lemma uniform_table_lines n table lines out :
  1 ≤ n →
  table_rows table ≠ [] →
  Forall (λ r, length (children r) = n) (table_rows table) →
  _cvt_table table lines = Ok out →
  ∃ caption body,
    table_caption table lines = Ok caption
    ∧ out = caption ++ body
    ∧ (Forall (λ l, String.length l
                    = String.length (table_rule (column_widths (table_rows table))))
              body
       ↔ Forall (λ w, 5 ≤ w) (column_widths (table_rows table))).
Proof.
  intros Hn Hne Hrows Hout.
  destruct (uniform_table_body n table lines out Hn Hne Hrows Hout)
    as (caption & aligns & before & after & Hcap & Hlen & Hone & -> & Hsame).
  destruct (table_rows table) as [|r rows] eqn:Hall; [done|].
  destruct (column_widths_uniform n r rows Hrows) as [Hlenw _].
  set (maxw := column_widths (r :: rows)) in *.
  exists caption, (before ++ [align_row_text maxw aligns] ++ after).
  split; [done|]. split; [done|].
  apply Forall_app in Hsame as [Hbefore Hafter].
  rewrite !Forall_app, Forall_singleton.
  rewrite length_align_row_text_any by congruence.
  assert (String.length (table_rule maxw) = sum_list (S <$> maxw) + 2) as Hrule.
  { apply length_table_rule. intros Heq. rewrite Heq in Hlenw. cbn in Hlenw. lia. }
  rewrite <- sum_widths_eq. split; [lia|]. intros Heq. split_and!; [done|lia|done].
Qed.

(** X6.  A table with no row in its head, body and foot is never converted:
    once the caption lines are made, the alignment list is still None when
    it is read, and the conversion ends in TypeError (or in the error of the
    caption). *)
Theorem table_without_rows_fails table lines :
  table_rows table = [] →
  _cvt_table table lines = (_ ← table_caption table lines; Raise TypeError).
Proof. apply _cvt_table_no_rows. Qed.

Lemma table_without_rows_fails_witness :
  table_rows rowless_table = []
  ∧ _cvt_table rowless_table [] = Raise TypeError.
Proof.
  split; [reflexivity|].
  exact (eq_trans (table_without_rows_fails rowless_table [] eq_refl) eq_refl).
Defined.

(** X7.  In a table whose rows all have [n] cells there are [n] column
    widths, and the width at each position is two more than the length of
    the longest stripped cell text at that position. *)
Theorem uniform_table_column_widths n table :
  table_rows table ≠ [] →
  Forall (λ r, length (children r) = n) (table_rows table) →
  length (column_widths (table_rows table)) = n
  ∧ ∀ j, j < n →
      column_widths (table_rows table) !! j
      = Some (2 + max_list_with (cell_width_at j) (table_rows table)).
Proof.
  intros Hne Hrows. destruct (table_rows table) as [|r rows]; [done|].
  by apply column_widths_uniform.
Qed.

Lemma uniform_table_column_widths_witness :
  length (column_widths (table_rows small_table)) = 2
  ∧ ∀ j, j < 2 →
      column_widths (table_rows small_table) !! j
      = Some (2 + max_list_with (cell_width_at j) (table_rows small_table)).
Proof.
  apply (uniform_table_column_widths 2 small_table); [done|].
  repeat constructor.
Defined.

(** X8.  A table whose rows all have the same number of cells, one at
    least, is converted whenever its caption is, and the lines written after
    the caption (rules, rows and the alignment row) all have the length of
    the rule exactly when every column is five characters wide or more, that
    is when every column holds a cell text of three characters or more. *)
Theorem uniform_table_lines_same_length n table lines caption :
  1 ≤ n →
  table_rows table ≠ [] →
  Forall (λ r, length (children r) = n) (table_rows table) →
  table_caption table lines = Ok caption →
  ∃ body,
    _cvt_table table lines = Ok (caption ++ body)
    ∧ (Forall (λ l, String.length l
                    = String.length (table_rule (column_widths (table_rows table))))
              body
       ↔ Forall (λ w, 5 ≤ w) (column_widths (table_rows table))).
Proof.
  intros Hn Hne Hrows Hcap.
  assert (∃ out, _cvt_table table lines = Ok out) as [out Hout].
  { unfold _cvt_table. rewrite Hcap. cbn [mbind res_mbind res_bind].
    fold (table_rows table).
    destruct (table_rows table) as [|r rows]; [done|].
    destruct (column_aligns_uniform n r rows Hrows) as (aligns & -> & _).
    by eexists. }
  destruct (uniform_table_lines n table lines out Hn Hne Hrows Hout)
    as (caption' & body & Hcap' & -> & Hiff).
  rewrite Hcap in Hcap'. injection Hcap' as <-. by exists body.
Qed.

Lemma uniform_table_lines_same_length_witness :
  ∃ body,
    _cvt_table small_table [] = Ok ([] ++ body)
    ∧ (Forall (λ l, String.length l
                    = String.length (table_rule (column_widths (table_rows small_table))))
              body
       ↔ Forall (λ w, 5 ≤ w) (column_widths (table_rows small_table))).
Proof.
  apply (uniform_table_lines_same_length 2 small_table [] []);
    [lia|done|repeat constructor|reflexivity].
Defined.

(** ** The alignment of a column *)

Lemma column_align_attrs_cons j row rows :
  column_align_attrs j (row :: rows)
  = match children row !! j ≫= (λ x, attr_get (attrib x) "align") with
    | Some a => if Py.nonempty a then a :: column_align_attrs j rows
                else column_align_attrs j rows
    | None => column_align_attrs j rows
    end.
Proof.
  unfold column_align_attrs. cbn [omap list_omap].
  destruct (children row !! j ≫= _) as [[|c a]|]; [| |done].
  - by rewrite filter_cons_False by naive_solver.
  - by rewrite filter_cons_True by done.
Qed.

Lemma aligns_loop_lookup n rows : ∀ a,
  Forall (λ r, length (children r) = n) rows →
  length a = n →
  ∃ a', foldl aligns_step (Some a) rows = Some a'
        ∧ length a' = n
        ∧ ∀ j x, a !! j = Some x →
            align_letter <$> a' !! j
            = Some (if truthy x then align_letter x else column_align j rows).
Proof.
  induction rows as [|r rows IH]; intros a Hrows Hlen.
  - exists a. split; [done|]. split; [done|]. intros j x ->. cbn.
    unfold column_align, align_letter, truthy. cbn.
    by destruct x as [[|c s]|].
  - apply Forall_cons in Hrows as [Hr Hrows]. cbn [foldl].
    set (row := map (λ x, attr_get (attrib x) "align") (children r)).
    assert (length row = n) as Hrow by (unfold row; by rewrite length_map).
    destruct a as [|x0 a].
    + cbn [aligns_step]. fold row.
      destruct (IH row Hrows Hrow) as (a' & -> & Hlen' & Hlookup).
      exists a'. split; [done|]. split; [done|]. intros j x Hj. done.
    + cbn [aligns_step]. fold row.
      set (a1 := zip_with (λ x y, if truthy x then x else y) (x0 :: a) row).
      assert (length a1 = n) as Hlen1.
      { unfold a1. rewrite length_zip_with. lia. }
      destruct (IH a1 Hrows Hlen1) as (a' & -> & Hlen' & Hlookup).
      exists a'. split; [done|]. split; [done|]. intros j x Hj.
      assert (j < n) as Hjn by (rewrite <- Hlen; by eapply lookup_lt_Some).
      destruct (lookup_lt_is_Some_2 (children r) j) as [c Hc]; [lia|].
      assert (row !! j = Some (attr_get (attrib c) "align")) as Hrj.
      { unfold row. by rewrite list_lookup_fmap, Hc. }
      assert (a1 !! j = Some (if truthy x then x else attr_get (attrib c) "align"))
        as Ha1.
      { unfold a1. by rewrite lookup_zip_with, Hj, Hrj. }
      rewrite (Hlookup j _ Ha1).
      unfold column_align. rewrite column_align_attrs_cons, Hc. cbn [mbind option_bind].
      f_equal. destruct (truthy x) eqn:Hx; [by rewrite Hx|].
      destruct (attr_get (attrib c) "align") as [[|ch s]|]; done.
Qed.

Lemma column_aligns_first_wins n r rows :
  Forall (λ r, length (children r) = n) (r :: rows) →
  ∃ aligns, column_aligns (r :: rows) = Ok aligns
            ∧ length aligns = n
            ∧ ∀ j, j < n → aligns !! j = Some (column_align j (r :: rows)).
Proof.
  intros [Hr Hrows]%Forall_cons. unfold column_aligns. cbn [foldl aligns_step].
  set (row := map (λ x, attr_get (attrib x) "align") (children r)).
  assert (length row = n) as Hrow by (unfold row; by rewrite length_map).
  destruct (aligns_loop_lookup n rows row Hrows Hrow) as (a' & -> & Hlen & Hlookup).
  eexists. split; [done|]. split; [by rewrite length_map|].
  intros j Hj.
  destruct (lookup_lt_is_Some_2 (children r) j) as [c Hc]; [lia|].
  assert (row !! j = Some (attr_get (attrib c) "align")) as Hrj.
  { unfold row. by rewrite list_lookup_fmap, Hc. }
  rewrite list_lookup_fmap. fold align_letter.
  change (λ x, match x with Some s => if Py.nonempty s then Py.first_char s else "l"
                          | None => "l" end) with align_letter.
  rewrite (Hlookup j _ Hrj). f_equal.
  unfold column_align. rewrite column_align_attrs_cons, Hc. cbn [mbind option_bind].
  destruct (attr_get (attrib c) "align") as [[|ch s]|]; done.
Qed.

(** X13.  In a table whose rows all have [n] cells, the alignment of a
    column is the first character of the first non-empty [align] attribute
    met in that column, reading the rows from the first to the last, and
    [l] when no cell of the column has one: a later row never changes an
    alignment that an earlier row has set. *)
Theorem column_alignment_first_wins n r rows :
  Forall (λ r, length (children r) = n) (r :: rows) →
  ∃ aligns, column_aligns (r :: rows) = Ok aligns
            ∧ length aligns = n
            ∧ ∀ j, j < n → aligns !! j = Some (column_align j (r :: rows)).
Proof. apply column_aligns_first_wins. Qed.

Lemma column_alignment_first_wins_witness :
  column_aligns aligned_rows = Ok ["c"; "r"]
  ∧ ∃ aligns, column_aligns aligned_rows = Ok aligns
              ∧ length aligns = 2
              ∧ ∀ j, j < 2 → aligns !! j = Some (column_align j aligned_rows).
Proof.
  split; [reflexivity|].
  apply (column_alignment_first_wins 2). repeat constructor.
Defined.

(** ** Paragraphs *)

Lemma startswith_cons a p b s :
  Py.startswith (String a p) (String b s) = Ascii.eqb a b && Py.startswith p s.
Proof. done. Qed.

Lemma contains_cons p c s :
  Py.contains p (String c s) = Py.startswith p (String c s) || Py.contains p s.
Proof. done. Qed.

Lemma endswith_cons p c s :
  Py.endswith p (String c s) = String.eqb p (String c s) || Py.endswith p s.
Proof. done. Qed.

Lemma app_str_cons c s t : String c s +:+ t = String c (s +:+ t).
Proof. done. Qed.

Lemma app_str_nil t : "" +:+ t = t.
Proof. done. Qed.

Lemma endswith_app p q : Py.endswith p (q +:+ p) = true.
Proof.
  induction q as [|c q IH].
  - rewrite app_str_nil. destruct p as [|a p]; [done|].
    rewrite endswith_cons, String.eqb_refl. done.
  - rewrite app_str_cons, endswith_cons, IH. apply orb_true_r.
Qed.

Lemma startswith_nl3_cons c o :
  Py.startswith nl3 (String c o) = Ascii.eqb Py.nl_char c && Py.startswith nl2 o.
Proof. done. Qed.

Lemma startswith_nl2_cons c o :
  Py.startswith nl2 (String c o) = Ascii.eqb Py.nl_char c && Py.startswith Py.nl o.
Proof. done. Qed.

Lemma startswith_nl_cons c o :
  Py.startswith Py.nl (String c o) = Ascii.eqb Py.nl_char c.
Proof. unfold Py.nl. rewrite startswith_cons. cbn. apply andb_true_r. Qed.

Lemma startswith_nl2_nl o :
  Py.startswith Py.nl o = false → Py.startswith nl2 o = false.
Proof.
  destruct o as [|c o]; [done|].
  rewrite startswith_nl_cons, startswith_nl2_cons. by intros ->.
Qed.

(** No run of three newlines is left, and the text starts with no more
    newlines than the run being read allows. *)
Lemma sub_blank_lines_runs s : ∀ seen,
  seen ≤ 2 →
  Py.contains nl3 (Py.sub_blank_lines seen s) = false
  ∧ Py.startswith (Py.repeat_str Py.nl (3 - seen)) (Py.sub_blank_lines seen s)
    = false.
Proof.
  induction s as [|c s IH]; intros seen Hseen.
  - cbn [Py.sub_blank_lines]. split; [done|].
    destruct seen as [|[|[|?]]]; [done..|lia].
  - cbn [Py.sub_blank_lines]. destruct (Ascii.eqb_spec c Py.nl_char) as [->|Hc].
    + destruct seen as [|[|[|?]]]; [| | |lia].
      * destruct (IH 1) as [Hno Hstart]; [lia|]. cbn [Nat.leb].
        change (Py.repeat_str Py.nl (3 - 1)) with nl2 in Hstart.
        change (Py.repeat_str Py.nl (3 - 0)) with nl3.
        rewrite contains_cons, Hno, startswith_nl3_cons, Hstart.
        by rewrite Ascii.eqb_refl.
      * destruct (IH 2) as [Hno Hstart]; [lia|]. cbn [Nat.leb].
        change (Py.repeat_str Py.nl (3 - 2)) with Py.nl in Hstart.
        change (Py.repeat_str Py.nl (3 - 1)) with nl2.
        rewrite contains_cons, Hno, startswith_nl3_cons, startswith_nl2_cons.
        rewrite Hstart, (startswith_nl2_nl _ Hstart).
        by rewrite Ascii.eqb_refl.
      * cbn [Nat.leb]. by apply IH.
    + assert (Ascii.eqb Py.nl_char c = false) as Hc'.
      { apply Ascii.eqb_neq. congruence. }
      destruct (IH 0) as [Hno _]; [lia|].
      assert (Py.contains nl3 (String c (Py.sub_blank_lines 0 s)) = false) as Hskip.
      { by rewrite contains_cons, startswith_nl3_cons, Hc', Hno. }
      split; [done|].
      destruct seen as [|[|[|?]]]; [| | |lia].
      * change (Py.repeat_str Py.nl (3 - 0)) with nl3.
        by rewrite startswith_nl3_cons, Hc'.
      * change (Py.repeat_str Py.nl (3 - 1)) with nl2.
        by rewrite startswith_nl2_cons, Hc'.
      * change (Py.repeat_str Py.nl (3 - 2)) with Py.nl.
        by rewrite startswith_nl_cons, Hc'.
Qed.

Lemma endswith_nl_app s :
  Py.endswith Py.nl s = true → Py.endswith nl2 (s +:+ Py.nl) = true.
Proof.
  induction s as [|c s IH]; [done|].
  rewrite endswith_cons, app_str_cons, endswith_cons. intros H.
  apply orb_true_iff in H as [H|H].
  - apply String.eqb_eq in H. unfold Py.nl in H. injection H as <- <-. done.
  - rewrite (IH H). apply orb_true_r.
Qed.

(** Newlines added after a text with no run of three and fewer than [k]
    newlines at its end. *)
Lemma contains_app_nl s :
  Py.contains nl3 s = false →
  Py.endswith nl2 s = false →
  Py.contains nl3 (s +:+ Py.nl) = false.
Proof.
  induction s as [|c s IH]; [done|].
  rewrite contains_cons, endswith_cons, app_str_cons, contains_cons.
  intros [Hstart Hno]%orb_false_iff [Heq Hend]%orb_false_iff.
  rewrite (IH Hno Hend), orb_false_r, startswith_nl3_cons.
  destruct (Ascii.eqb_spec Py.nl_char c) as [<-|Hc]; [|done].
  destruct s as [|d s]; [done|].
  rewrite app_str_cons, startswith_nl2_cons.
  destruct (Ascii.eqb_spec Py.nl_char d) as [<-|Hd]; [|done].
  destruct s as [|e s]; [done|].
  rewrite app_str_cons, startswith_nl_cons.
  destruct (Ascii.eqb_spec Py.nl_char e) as [<-|He]; [done|done].
Qed.

Lemma contains_app_nl2 s :
  Py.contains nl3 s = false →
  Py.endswith Py.nl s = false →
  Py.contains nl3 (s +:+ nl2) = false.
Proof.
  induction s as [|c s IH]; [done|].
  rewrite contains_cons, endswith_cons, app_str_cons, contains_cons.
  intros [Hstart Hno]%orb_false_iff [Heq Hend]%orb_false_iff.
  rewrite (IH Hno Hend), orb_false_r, startswith_nl3_cons.
  destruct (Ascii.eqb_spec Py.nl_char c) as [<-|Hc]; [|done].
  destruct s as [|d s]; [done|].
  rewrite app_str_cons, startswith_nl2_cons.
  destruct (Ascii.eqb_spec Py.nl_char d) as [<-|Hd]; [|done].
  destruct s as [|e s]; [done|].
  rewrite app_str_cons, startswith_nl_cons.
  destruct (Ascii.eqb_spec Py.nl_char e) as [<-|He]; [done|done].
Qed.

Lemma paragraph_shape fill refs attrs txt tl cs lines mid level out :
  _cvt_mid_back fill refs (Elt "t" attrs txt tl cs) lines mid level = Ok out →
  ∃ p, out = lines ++ [p]
       ∧ Py.endswith nl2 p = true
       ∧ Py.contains nl3 p = false.
Proof.
  intros H. cbn [_cvt_mid_back String.eqb Ascii.eqb Bool.eqb] in H.
  apply bind_Ok in H as (ptext & _ & H).
  apply bind_Ok in H as (ptext' & _ & H).
  apply mret_Ok in H as <-. eexists. split; [reflexivity|].
  destruct (sub_blank_lines_runs ptext' 0) as [Hno _]; [lia|].
  change (Py.nl +:+ Py.nl) with nl2.
  destruct (Py.endswith nl2 (Py.sub_blank_lines 0 ptext')) eqn:Hend2; [done|].
  destruct (Py.endswith Py.nl (Py.sub_blank_lines 0 ptext')) eqn:Hend1.
  - split; [by apply endswith_nl_app|by apply contains_app_nl].
  - change (?s +:+ Py.nl +:+ Py.nl) with (s +:+ nl2).
    split; [apply (endswith_app nl2)|by apply contains_app_nl2].
Qed.

(** X9.  A paragraph that is converted adds one fragment to the output,
    whatever the reflow does: the fragment ends in a blank line (two
    newlines) and holds no run of three newlines. *)
Theorem paragraph_fragment_shape fill refs e lines mid level out :
  tag e = "t" →
  _cvt_mid_back fill refs e lines mid level = Ok out →
  ∃ p, out = lines ++ [p]
       ∧ Py.endswith nl2 p = true
       ∧ Py.contains nl3 p = false.
Proof.
  destruct e as [tg attrs txt tl cs]. cbn [tag]. intros ->.
  apply paragraph_shape.
Qed.

Lemma paragraph_fragment_shape_witness :
  ∃ p, ["Hello" +:+ nl2] = [] ++ [p]
       ∧ Py.endswith nl2 p = true
       ∧ Py.contains nl3 p = false.
Proof.
  apply (paragraph_fragment_shape fill_id ∅ plain_paragraph [] true 0);
    reflexivity.
Defined.

(** ** The attributes of the [rfc] element *)

Lemma app_str_nil_r s : s +:+ "" = s.
Proof. induction s as [|c s IH]; [done|]. unfold String.app in *. cbn. by rewrite IH. Qed.

Lemma app_str_assoc a b c : (a +:+ b) +:+ c = a +:+ (b +:+ c).
Proof.
  induction a as [|x a IH]; [done|].
  change (String x ((a +:+ b) +:+ c) = String x (a +:+ (b +:+ c))). by rewrite IH.
Qed.

Lemma rev_app_app s : ∀ t u, String.rev_app s t +:+ u = String.rev_app s (t +:+ u).
Proof.
  induction s as [|c s IH]; intros t u; [done|].
  cbn [String.rev_app]. by rewrite IH.
Qed.

Lemma isdigit_isnamechar d : Py.isdigit d = true → Re.isnamechar d = true.
Proof. unfold Re.isnamechar. intros ->. apply orb_true_r. Qed.

Lemma isdigit_not_dash d : Py.isdigit d = true → Ascii.eqb d "-" = false.
Proof.
  intros Hd. apply Ascii.eqb_neq. intros ->. done.
Qed.

(** The greedy name group gives back the version and nothing more. *)
Lemma docname_from_name name d1 d2 : ∀ acc,
  all_chars Re.isnamechar name = true →
  Py.isdigit d1 = true → Py.isdigit d2 = true →
  Py.nonempty (acc +:+ name) = true →
  Re.docname_from acc (name +:+ "-" +:+ String d1 (String d2 ""))
  = Some (String.rev acc +:+ name, String d1 (String d2 "")).
Proof.
  induction name as [|c name IH]; intros acc Hname Hd1 Hd2 Hne.
  - rewrite app_str_nil_r in Hne |- *.
    change ("" +:+ "-" +:+ String d1 (String d2 ""))
      with (String "-" (String d1 (String d2 ""))).
    cbn [Re.docname_from].
    rewrite (isdigit_isnamechar d1 Hd1), (isdigit_isnamechar d2 Hd2).
    change (Re.isnamechar "-") with true. cbn iota.
    cbn [Py.nonempty Re.version_here mbind option_bind].
    rewrite Hne, Hd1, Hd2.
    change (Ascii.eqb "-" "-") with true. cbn. done.
  - cbn [all_chars] in Hname. apply andb_true_iff in Hname as [Hc Hname].
    change (String c name +:+ "-" +:+ String d1 (String d2 ""))
      with (String c (name +:+ "-" +:+ String d1 (String d2 ""))).
    cbn [Re.docname_from]. rewrite Hc.
    rewrite (IH (String c acc)) by done.
    unfold String.rev. cbn [String.rev_app]. by rewrite !rev_app_app.
Qed.

Lemma match_docname_name name d1 d2 :
  Py.nonempty name = true →
  all_chars Re.isnamechar name = true →
  Py.isdigit d1 = true → Py.isdigit d2 = true →
  Re.match_docname (name +:+ "-" +:+ String d1 (String d2 ""))
  = Some (name, String d1 (String d2 "")).
Proof.
  intros Hne Hname Hd1 Hd2. unfold Re.match_docname.
  by rewrite docname_from_name.
Qed.





(** ** The property block of a bibliographic entry *)

Lemma _cvt_front_ref_lines front lines out :
  _cvt_front_ref front lines = Ok out →
  ∃ props, out = lines ++ props
           ∧ length props ≤ 2
           ∧ Forall (λ l, Py.startswith ":REF_" l = true) props.
Proof.
  unfold _cvt_front_ref. intros H.
  apply bind_Ok in H as (lines' & Htitle & H).
  assert (∃ p1, lines' = lines ++ p1 ∧ length p1 ≤ 1
                ∧ Forall (λ l, Py.startswith ":REF_" l = true) p1)
    as (p1 & -> & Hlen1 & Hp1).
  { destruct (find "title" (children front)).
    - apply bind_Ok in Htitle as (t & _ & Htitle). apply mret_Ok in Htitle as <-.
      eexists. split; [done|]. split; [done|]. repeat (constructor; [reflexivity|]); constructor.
    - apply mret_Ok in Htitle as <-. exists []. rewrite app_nil_r. split_and!; [done|cbn; lia|constructor]. }
  destruct (find "author" (children front)) as [author|].
  - destruct (find "organization" (children author)); [|done].
    apply bind_Ok in H as (t & _ & H). apply mret_Ok in H as <-.
    exists (p1 ++ [":REF_ORG: " +:+ t +:+ Py.nl]).
    rewrite (assoc_L (++)). split; [done|].
    split; [rewrite length_app; cbn [length]; lia|].
    apply Forall_app. split; [done|]. repeat (constructor; [reflexivity|]); constructor.
  - apply mret_Ok in H as <-. exists p1. split; [done|]. split; [lia|done].
Qed.

Lemma reference_block c lines out :
  tag c = "reference" →
  _cvt_reference c lines = Ok out →
  ∃ anchor props,
    attr_get (attrib c) "anchor" = Some anchor
    ∧ out = lines ++ ["** " +:+ anchor +:+ Py.nl; ":PROPERTIES:" +:+ Py.nl]
                  ++ props ++ [":END:" +:+ Py.nl]
    ∧ length props ≤ 3
    ∧ Forall (λ l, Py.startswith ":REF_" l = true) props.
Proof.
  intros Htag. unfold _cvt_reference. rewrite Htag.
  change (Py.contains "include" "reference") with false. cbn iota.
  change (String.eqb "reference" "reference") with true. cbn iota.
  destruct (attr_get (attrib c) "anchor") as [anchor|]; [|done].
  intros H. apply bind_Ok in H as (lines' & Hfront & H). apply mret_Ok in H as <-.
  exists anchor.
  set (target := match attr_get (attrib c) "target" with
                 | Some t => [":REF_TARGET: " +:+ Py.strip t +:+ Py.nl]
                 | None => []
                 end).
  assert (∃ p2, lines' = ((lines ++ ["** " +:+ anchor +:+ Py.nl])
                            ++ [":PROPERTIES:" +:+ Py.nl]) ++ target ++ p2
                ∧ length p2 ≤ 2
                ∧ Forall (λ l, Py.startswith ":REF_" l = true) p2)
    as (p2 & -> & Hlen2 & Hp2).
  { assert (match attr_get (attrib c) "target" with
            | Some t => (lines ++ ["** " +:+ anchor +:+ Py.nl])
                          ++ [":PROPERTIES:" +:+ Py.nl]
                          ++ [":REF_TARGET: " +:+ Py.strip t +:+ Py.nl]
            | None => (lines ++ ["** " +:+ anchor +:+ Py.nl])
                        ++ [":PROPERTIES:" +:+ Py.nl]
            end
            = ((lines ++ ["** " +:+ anchor +:+ Py.nl])
                 ++ [":PROPERTIES:" +:+ Py.nl]) ++ target) as Heq.
    { unfold target. destruct (attr_get (attrib c) "target").
      - by rewrite <- !(assoc_L (++)).
      - by rewrite app_nil_r, <- !(assoc_L (++)). }
    destruct (find "front" (children c)) as [front|].
    - apply _cvt_front_ref_lines in Hfront as (p2 & -> & Hlen2 & Hp2).
      exists p2. split; [|done].
      destruct (attr_get (attrib c) "target"); unfold target;
        by rewrite <- ?(assoc_L (++)), ?app_nil_r.
    - apply mret_Ok in Hfront as <-. exists [].
      split; [|split; [cbn; lia|done]].
      destruct (attr_get (attrib c) "target"); unfold target;
        by rewrite <- ?(assoc_L (++)), ?app_nil_r. }
  exists (target ++ p2). split; [done|].
  split; [by rewrite <- !(assoc_L (++))|].
  split.
  - rewrite length_app. unfold target.
    destruct (attr_get (attrib c) "target"); cbn [length]; lia.
  - apply Forall_app. split; [|done]. unfold target.
    destruct (attr_get (attrib c) "target"); repeat (constructor; [reflexivity|]); constructor.
Qed.

(** X10.  A docName made of a non-empty name over lower-case letters, digits
    and dashes, a dash and two digits is split at its last dash: the name
    goes to the RFC_NAME directive and the two digits to RFC_VERSION, also
    when the name itself holds dashes and digits. *)
Theorem docname_name_and_version name d1 d2 lines :
  Py.nonempty name = true →
  all_chars Re.isnamechar name = true →
  Py.isdigit d1 = true →
  Py.isdigit d2 = true →
  rfc_attr ("docName", name +:+ "-" +:+ String d1 (String d2 "")) lines
  = Ok (lines ++ ["#+RFC_NAME: " +:+ name +:+ Py.nl;
                  "#+RFC_VERSION: " +:+ String d1 (String d2 "") +:+ Py.nl]).
Proof.
  intros Hne Hname Hd1 Hd2. unfold rfc_attr.
  change (String.eqb "docName" "docName") with true. cbn iota.
  by rewrite match_docname_name.
Qed.

Lemma docname_name_and_version_witness :
  rfc_attr ("docName", "draft-a-1-03") []
  = Ok ["#+RFC_NAME: draft-a-1" +:+ Py.nl; "#+RFC_VERSION: 03" +:+ Py.nl].
Proof.
  apply (docname_name_and_version "draft-a-1" "0" "3" []); reflexivity.
Defined.



(** X12.  A reference element that is converted has an anchor, and its
    entry is a heading with that anchor, the opening of a property block, at
    most three property lines, each a REF_ property, and the closing of the
    block: the block that is opened is always closed. *)
Theorem reference_entry_block c lines out :
  tag c = "reference" →
  _cvt_reference c lines = Ok out →
  ∃ anchor props,
    attr_get (attrib c) "anchor" = Some anchor
    ∧ out = lines ++ ["** " +:+ anchor +:+ Py.nl; ":PROPERTIES:" +:+ Py.nl]
                  ++ props ++ [":END:" +:+ Py.nl]
    ∧ length props ≤ 3
    ∧ Forall (λ l, Py.startswith ":REF_" l = true) props.
Proof. apply reference_block. Qed.

Lemma reference_entry_block_witness :
  ∃ anchor props,
    attr_get (attrib titled_reference) "anchor" = Some anchor
    ∧ ["** REF1" +:+ Py.nl; ":PROPERTIES:" +:+ Py.nl;
       ":REF_TARGET: http://example.org" +:+ Py.nl;
       ":REF_TITLE: A Title" +:+ Py.nl; ":END:" +:+ Py.nl]
      = [] ++ ["** " +:+ anchor +:+ Py.nl; ":PROPERTIES:" +:+ Py.nl]
           ++ props ++ [":END:" +:+ Py.nl]
    ∧ length props ≤ 3
    ∧ Forall (λ l, Py.startswith ":REF_" l = true) props.
Proof.
  apply (reference_entry_block titled_reference []); reflexivity.
Defined.

(** ** The list markers of [_fill] *)

Lemma count_nl_app a b : count_nl (a +:+ b) = count_nl a + count_nl b.
Proof.
  induction a as [|c a IH]; [done|].
  change (String c a +:+ b) with (String c (a +:+ b)).
  cbn [count_nl]. rewrite IH. lia.
Qed.

Lemma span_app cls s a b : Re.span cls s = (a, b) → s = a +:+ b.
Proof.
  revert a b. induction s as [|c s IH]; intros a b H; cbn [Re.span] in H.
  - by injection H as <- <-.
  - destruct (cls c).
    + destruct (Re.span cls s) as [a' b']. injection H as <- <-.
      by rewrite (IH a' b' eq_refl) at 1.
    + by injection H as <- <-.
Qed.

Lemma span_blank_no_nl s a b :
  Re.span Py.isblank s = (a, b) → count_nl a = 0.
Proof.
  revert a b. induction s as [|c s IH]; intros a b H; cbn [Re.span] in H.
  - by injection H as <- <-.
  - destruct (Py.isblank c) eqn:Hc.
    + destruct (Re.span Py.isblank s) as [a' b']. injection H as <- <-.
      cbn [count_nl]. rewrite (IH a' b' eq_refl).
      destruct (Ascii.eqb_spec c Py.nl_char) as [->|]; done.
    + by injection H as <- <-.
Qed.

(** A marker is read off the start of the text. *)
Lemma marker_here_prefix s m :
  Reflow.marker_here s = Some m → ∃ rest, s = m +:+ rest.
Proof.
  unfold Reflow.marker_here.
  assert (∀ base r m', (match r with
                        | String b _ => if Py.isblank b then base +:+ String b "" else base
                        | EmptyString => base
                        end) = m' → ∃ rest, base +:+ r = m' +:+ rest) as Hopt.
  { intros base r m' <-. destruct r as [|b r]; [by exists ""|].
    destruct (Py.isblank b).
    - exists r. clear. induction base as [|x base IH]; [done|].
      change (String x (base +:+ String b r)
              = String x ((base +:+ String b "") +:+ r)). by rewrite IH.
    - by eexists. }
  pose (fb := match s with
              | String c (String " " r') =>
                  if Ascii.eqb c "-" || Ascii.eqb c "*"
                  then Some (match r' with
                             | String b _ => if Py.isblank b
                                             then String c " " +:+ String b ""
                                             else String c " "
                             | EmptyString => String c " "
                             end)
                  else None
              | _ => None
              end).
  assert (fb = Some m → ∃ rest, s = m +:+ rest) as Hfb.
  { unfold fb. destruct s as [|c [|sp r']]; try done.
    destruct (Ascii.eqb_spec sp " ") as [->|Hsp].
    - destruct (_ || _); [|done]. intros [= H].
      apply (Hopt (String c " ")) in H. exact H.
    - destruct sp as [[] [] [] [] [] [] [] []]; done. }
  destruct (Re.span Py.isdigit s) as [digits r] eqn:Hspan.
  apply span_app in Hspan.
  intros H.
  change (match Py.nonempty digits, r with
          | true, String "." EmptyString => Some (digits +:+ ".")
          | true, String "." (String d r') =>
              if Py.isdigit d then None
              else Some (match r' with
                         | String b _ =>
                             if Py.isblank b
                             then (digits +:+ "." +:+ String d "") +:+ String b ""
                             else digits +:+ "." +:+ String d ""
                         | EmptyString => digits +:+ "." +:+ String d ""
                         end)
          | _, _ => fb
          end = Some m) in H.
  clearbody fb.
  assert (∀ a b : string, (a +:+ ".") +:+ b = a +:+ String "." b) as Hdot.
  { intros a b. induction a as [|x a IH]; [done|].
    change (String x ((a +:+ ".") +:+ b) = String x (a +:+ String "." b)).
    by rewrite IH. }
  destruct (Py.nonempty digits); [|by apply Hfb].
  destruct r as [|c r]; [by apply Hfb|].
  destruct (Ascii.eqb_spec c ".") as [->|Hc].
  2:{ destruct c as [[] [] [] [] [] [] [] []]; by apply Hfb. }
  destruct r as [|d r].
  - injection H as <-. exists "". rewrite Hspan.
    clear. induction digits as [|x a IH]; [done|].
    change (String x (a +:+ ".") = String x ((a +:+ ".") +:+ "")).
    by rewrite <- IH.
  - destruct (Py.isdigit d); [done|]. injection H as H.
    apply Hopt in H as [rest H]. exists rest. rewrite <- H, Hspan.
    clear. induction digits as [|x a IH]; [done|].
    change (String x (a +:+ String "." (String d r))
            = String x ((a +:+ "." +:+ String d "") +:+ r)).
    by rewrite IH.
Qed.

Lemma sub_markers_skip p : ∀ rest,
  Reflow.sub_markers (String.length p) (p +:+ rest) = Reflow.sub_markers 0 rest.
Proof.
  induction p as [|c p IH]; intros rest; [done|].
  change (String c p +:+ rest) with (String c (p +:+ rest)).
  cbn [String.length Reflow.sub_markers]. apply IH.
Qed.

Lemma sub_markers_count_nl n : ∀ s,
  String.length s ≤ n →
  count_nl (Reflow.sub_markers 0 s) = count_nl s.
Proof.
  induction n as [|n IH]; intros s Hlen.
  - destruct s; [done|]. cbn in Hlen. lia.
  - destruct s as [|c s]; [done|]. cbn [String.length] in Hlen.
    cbn [Reflow.sub_markers].
    destruct (Re.span Py.isblank s) as [blanks r] eqn:Hspan.
    pose proof (span_blank_no_nl _ _ _ Hspan) as Hblanks.
    apply span_app in Hspan.
    destruct (if Ascii.eqb c Py.nl_char then Reflow.marker_here r else None)
      as [m|] eqn:Hm.
    + destruct (Ascii.eqb c Py.nl_char) eqn:Hc; [|done].
      apply marker_here_prefix in Hm as [rest ->].
      assert (s = (blanks +:+ m) +:+ rest) as Hs.
      { rewrite Hspan. clear. induction blanks as [|x a IH]; [done|].
        change (String x (a +:+ m +:+ rest) = String x ((a +:+ m) +:+ rest)).
        by rewrite IH. }
      rewrite <- length_app_str. rewrite Hs at 1. rewrite sub_markers_skip.
      rewrite !count_nl_app, IH.
      2:{ rewrite Hs, !length_app_str in Hlen. lia. }
      cbn [count_nl]. rewrite Hc, Hs, !count_nl_app, Hblanks.
      change (Ascii.eqb " " Py.nl_char) with false.
      change (count_nl Py.nl) with 1. cbn iota. lia.
    + cbn [count_nl]. rewrite IH by lia. done.
Qed.

Lemma _fill_count_nl fill text indent :
  count_nl (_fill fill text indent)
  = count_nl (fill text 69 (Py.repeat_str " " indent)).
Proof. unfold _fill. by eapply sub_markers_count_nl. Qed.

(** ** Definition lists *)

Section DefinitionLists.
Variable fill : string → nat → string → string.
Variable rec : Element → list string → res (list string).


End DefinitionLists.

(** X14.  The list-marker fix of the reflow moves line breaks and never adds
    or removes one: the text that [_fill] returns has as many newlines as
    the text that the library reflow returned. *)
Theorem fill_keeps_line_breaks fill text indent :
  count_nl (_fill fill text indent)
  = count_nl (fill text 69 (Py.repeat_str " " indent)).
Proof. apply _fill_count_nl. Qed.



(** ** The text of a paragraph or list item *)

Lemma concat_str_app a b :
  Py.concat_str (a ++ b) = Py.concat_str a +:+ Py.concat_str b.
Proof.
  induction a as [|s a IH]; [done|].
  cbn [app Py.concat_str]. by rewrite IH, app_str_assoc.
Qed.

Lemma add_to_last_concat t l : ∀ s,
  ∃ out, add_to_last (s :: l) t = Ok out
         ∧ out ≠ []
         ∧ Py.concat_str out = Py.concat_str (s :: l) +:+ t.
Proof.
  induction l as [|s' l IH]; intros s.
  - eexists. split; [reflexivity|]. split; [done|].
    cbn [Py.concat_str]. by rewrite !app_str_nil_r.
  - change (add_to_last (s :: s' :: l) t)
      with (l' ← add_to_last (s' :: l) t; mret (s :: l')).
    destruct (IH s') as (out & -> & _ & Hout). eexists.
    split; [reflexivity|]. split; [done|].
    cbn [Py.concat_str] in Hout |- *. by rewrite Hout, !app_str_assoc.
Qed.

Section InlineText.
Variable rec : Element → list string → res (list string).

Lemma text_children_inline cs :
  Forall (framed rec) cs →
  ∀ tlines, tlines ≠ [] →
    res_map Py.concat_str (text_children rec cs tlines)
    = res_map (λ inl, Py.concat_str tlines +:+ inl)
              (inline_text (λ c, rec c []) cs).
Proof.
  induction 1 as [|c cs Hc _ IH]; intros tlines Hne.
  - cbn. by rewrite app_str_nil_r.
  - cbn [text_children inline_text]. rewrite (Hc tlines).
    destruct (rec c []) as [frags|err]; [|done].
    cbn [res_map mbind res_mbind res_bind].
    assert (∃ tl2, (if truthy (tail c)
                    then t ← _unindent (tail c); add_to_last (tlines ++ frags) t
                    else mret (tlines ++ frags)) = Ok tl2
                   ∧ tl2 ≠ []
                   ∧ Py.concat_str tl2
                     = Py.concat_str (tlines ++ frags) +:+ tail_text c)
      as (tl2 & -> & Hne2 & Hcat).
    { unfold tail_text, truthy. destruct (tail c) as [s|].
      - destruct (Py.nonempty s).
        + cbn [_unindent mbind res_mbind res_bind].
          destruct tlines as [|s0 tlines]; [done|]. cbn [app].
          apply add_to_last_concat.
        + eexists. split; [reflexivity|]. split; [by destruct tlines|].
          by rewrite app_str_nil_r.
      - eexists. split; [reflexivity|]. split; [by destruct tlines|].
        by rewrite app_str_nil_r. }
    cbn [mbind res_mbind res_bind]. rewrite (IH tl2 Hne2).
    destruct (inline_text _ cs) as [rest|err]; [|done].
    cbn [res_map mbind res_mbind res_bind mret res_mret]. f_equal.
    rewrite Hcat, concat_str_app. by rewrite !app_str_assoc.
Qed.

End InlineText.

Lemma _cvt_mid_back_text_elt_inline fill refs cs text indent mid level :
  _cvt_mid_back_text_elt fill (λ c l, _cvt_mid_back fill refs c l mid level)
    cs text indent
  = (inl ← inline_text (λ c, _cvt_mid_back fill refs c [] mid level) cs;
     mret (_fill fill (text +:+ inl) indent)).
Proof.
  unfold _cvt_mid_back_text_elt.
  pose proof (text_children_inline
                (λ c l, _cvt_mid_back fill refs c l mid level) cs) as Hinl.
  specialize (Hinl ltac:(apply Forall_forall; intros c _;
                         apply (_cvt_mid_back_framed fill refs c mid level))
                   [text] ltac:(done)).
  cbn beta in Hinl.
  destruct (text_children _ cs [text]) as [tl|err];
    destruct (inline_text _ cs) as [inl|err']; try done.
  cbn [res_map Py.concat_str] in Hinl. injection Hinl as Hinl.
  cbn [mbind res_mbind res_bind mret res_mret].
  by rewrite Hinl, app_str_nil_r.
Qed.

(** ** Lists *)

Section ListItems.
Variable fill : string → nat → string → string.
Variable rec : Element → list string → res (list string).

Lemma list_items_lines cs : ∀ lines out,
  list_items fill rec cs lines = Ok out →
  ∃ items, out = lines ++ items
           ∧ length items = length (filter (λ c, tag c = "li") cs)
           ∧ Forall (λ l, Py.startswith "- " l = true) items.
Proof.
  induction cs as [|c cs IH]; intros lines out H; cbn [list_items] in H.
  - apply mret_Ok in H as <-. exists []. by rewrite app_nil_r.
  - destruct (String.eqb (tag c) "li") eqn:Hli.
    + apply String.eqb_eq in Hli.
      apply bind_Ok in H as (t & _ & H). apply bind_Ok in H as (itext & _ & H).
      apply IH in H as (items & -> & Hlen & Hitems).
      exists (("- " +:+ itext +:+ Py.nl) :: items).
      rewrite <- (assoc_L (++)). split; [done|].
      rewrite filter_cons_True by done. cbn [length]. split; [by rewrite Hlen|].
      constructor; [reflexivity|done].
    + apply String.eqb_neq in Hli.
      apply IH in H as (items & -> & Hlen & Hitems).
      exists items. by rewrite filter_cons_False by done.
Qed.

End ListItems.

(** X16.  The text of a paragraph or list item keeps the order of the
    document: what is handed to the reflow is the leading text followed, for
    each child in turn, by the fragments of that child, as the dispatcher
    gives them from the empty output, and the de-indented tail of the child;
    and the conversion fails exactly when the conversion of a child fails,
    with the error of the first child that does. *)
Theorem text_in_document_order fill refs cs text indent mid level :
  _cvt_mid_back_text_elt fill (λ c l, _cvt_mid_back fill refs c l mid level)
    cs text indent
  = (inl ← inline_text (λ c, _cvt_mid_back fill refs c [] mid level) cs;
     mret (_fill fill (text +:+ inl) indent)).
Proof. apply _cvt_mid_back_text_elt_inline. Qed.

(** X17.  An ordered or unordered list that is converted gives a blank
    line, the attribute line when the list is compact, one line for each li
    child, starting with a dash and a space, and a blank line: children that
    are no li give no line, and what is nested in an item stays inside the
    line of that item. *)
Theorem list_gives_one_line_for_each_item fill refs e lines mid level out :
  tag e = "ol" ∨ tag e = "ul" →
  _cvt_mid_back fill refs e lines mid level = Ok out →
  ∃ items,
    out = lines ++ [Py.nl] ++ attr_rfc_line (list_attrs (attrib e)) []
                ++ items ++ [Py.nl]
    ∧ length items = length (filter (λ c, tag c = "li") (children e))
    ∧ Forall (λ l, Py.startswith "- " l = true) items.
Proof.
  destruct e as [tg attrs txt tl cs]. cbn [tag attrib children].
  intros Htag H.
  assert (_cvt_mid_back fill refs (Elt tg attrs txt tl cs) lines mid level
          = (let lines := lines ++ [Py.nl] in
             let lines := attr_rfc_line (list_attrs attrs) lines in
             lines ← list_items fill (λ c l, _cvt_mid_back fill refs c l mid level)
                       cs lines;
             mret (lines ++ [Py.nl]))) as Heq.
  { destruct Htag as [-> | ->]; reflexivity. }
  rewrite Heq in H. cbv zeta in H.
  apply bind_Ok in H as (lines' & Hitems & H). apply mret_Ok in H as <-.
  apply list_items_lines in Hitems as (items & -> & Hlen & Hitems).
  exists items. split; [|done].
  rewrite (attr_rfc_line_framed _ (lines ++ _)).
  by rewrite <- !(assoc_L (++)).
Qed.

Lemma list_gives_one_line_for_each_item_witness :
  ∃ items,
    [Py.nl; "- one" +:+ Py.nl; "- two" +:+ Py.nl; Py.nl]
    = [] ++ [Py.nl] ++ attr_rfc_line (list_attrs (attrib two_item_list)) []
         ++ items ++ [Py.nl]
    ∧ length items = length (filter (λ c, tag c = "li") (children two_item_list))
    ∧ Forall (λ l, Py.startswith "- " l = true) items.
Proof.
  apply (list_gives_one_line_for_each_item fill_id ∅ two_item_list [] true 0);
    [by right|reflexivity].
Defined.
